(** * WebAuth keyrings and tokens

    A shallow embedding of lib/keyring.c and lib/token-encode.c, and the
    properties the specification states about them.

    Conventions of the embedding.
    - [time_t] and the other C integers are [Z].  The one place where the
      source does arithmetic on them, [check_ring], has its conversion and
      its wrap-around written out for a 64-bit [time_t] and a 64-bit
      [unsigned long] (LP64).
    - [time(NULL)] is an explicit argument [now], or the field [env_now] of the
      environment of a call, of every function that reads the clock.
    - A pointer that may be NULL is an [option]; a function that returns a
      status and stores its result through an output pointer returns the
      pair of the status and the value stored.
    - The functions of the library that live in other files (attribute
      codec, key constructor, encryption layer, base64) are the members of
      two classes, [KeyringDeps] and [TokenDeps]; every theorem holds for all
      their instances and says which behaviour of them it relies on.
    - The file system is a finite map from paths to contents; every APR call
      that can fail takes its outcome from the environment of the call. *)

From stdpp Require Import gmap strings list.
From Stdlib Require Import ZArith Lia.
From Stdlib.Strings Require Import Ascii Byte.

Local Open Scope Z_scope.

(** ** Status codes (webauth/basic.h) *)

Inductive status : Set :=
  | WA_ERR_NONE
  | WA_ERR_NO_MEM
  | WA_ERR_CORRUPT
  | WA_ERR_BAD_HMAC
  | WA_ERR_BAD_KEY
  | WA_ERR_RAND_FAILURE
  | WA_ERR_NOT_FOUND
  | WA_ERR_INVALID
  | WA_ERR_FILE_NOT_FOUND
  | WA_ERR_FILE_VERSION
  | WA_ERR_FILE_OPENREAD
  | WA_ERR_FILE_OPENWRITE
  | WA_ERR_FILE_READ
  | WA_ERR_FILE_WRITE
  | WA_ERR_TOKEN_EXPIRED.

#[global] Instance status_eq_dec : EqDecision status.
Proof. solve_decision. Defined.

Abbreviation bytes := (list byte).

(** ** Keys and keyrings (webauth/keys.h, lib/keyring.c) *)

Record webauth_key : Set := {
  key_type : Z;
  key_length : Z;
  key_data : bytes
}.

Definition WA_KEY_AES : Z := 1.
Definition WA_AES_128 : Z := 16.
Definition WA_AES_192 : Z := 24.
Definition WA_AES_256 : Z := 32.

Inductive webauth_key_usage : Set := WA_KEY_DECRYPT | WA_KEY_ENCRYPT.

Record webauth_keyring_entry : Set := {
  creation : Z;
  valid_after : Z;
  key : webauth_key
}.

(** [struct webauth_keyring] holds one APR array of entries. *)
Abbreviation webauth_keyring := (list webauth_keyring_entry).

Module Keyring.

(** [webauth_keyring_new]: an empty array; the capacity is only a hint. *)
Definition webauth_keyring_new (capacity : Z) : webauth_keyring := [].

(** [webauth_key_copy] duplicates the structure and its data. *)
Definition webauth_key_copy (k : webauth_key) : webauth_key :=
  {| key_type := key_type k; key_length := key_length k;
     key_data := key_data k |}.

(** [webauth_keyring_add]: the two times are stored as passed, the copied key
    is pushed at the end of the array. *)
Definition webauth_keyring_add (ring : webauth_keyring)
    (creation valid_after : Z) (key : webauth_key) : webauth_keyring :=
  let entry := {| creation := creation; valid_after := valid_after;
                  key := webauth_key_copy key |} in
  ring ++ [entry].

(** [webauth_keyring_from_key] *)
Definition webauth_keyring_from_key (key : webauth_key) : webauth_keyring :=
  let ring := webauth_keyring_new 1 in
  webauth_keyring_add ring 0 0 key.

(** The loop of [webauth_keyring_remove],
    [for (i = n + 1; i < nelts; i++) entries[i - 1] = entries[i]], from
    position [i] on with [steps] iterations left.  Every position read lies
    inside the array. *)
Fixpoint shift_down (entries : webauth_keyring) (i steps : nat)
    : webauth_keyring :=
  match steps with
  | O => entries
  | S steps' =>
      match entries !! i with
      | Some entry =>
          shift_down (<[Nat.pred i := entry]> entries) (S i) steps'
      | None => entries
      end
  end.

(** [apr_array_pop]: the array without its last element. *)
Definition apr_array_pop (entries : webauth_keyring) : webauth_keyring :=
  take (length entries - 1) entries.

(** [webauth_keyring_remove]: the status and the array on return. *)
Definition webauth_keyring_remove (ring : webauth_keyring) (n : nat)
    : status * webauth_keyring :=
  if (length ring <=? n)%nat then (WA_ERR_NOT_FOUND, ring)
  else
    (WA_ERR_NONE,
     apr_array_pop (shift_down ring (S n) (length ring - S n))).

(** One iteration of the loop of [webauth_keyring_best_key].  [best] points
    into the array, so it is kept as the position together with the entry
    found there. *)
Definition best_key_step (usage : webauth_key_usage) (hint now : Z)
    (best : option (nat * webauth_keyring_entry))
    (i : nat) (entry : webauth_keyring_entry)
    : option (nat * webauth_keyring_entry) :=
  let valid := valid_after entry in
  if valid >? now then best
  else match usage with
       | WA_KEY_ENCRYPT =>
           match best with
           | None => Some (i, entry)
           | Some (_, b) =>
               if valid >? valid_after b then Some (i, entry) else best
           end
       | WA_KEY_DECRYPT =>
           if (hint >=? valid)
              && match best with
                 | None => true
                 | Some (_, b) => valid >=? valid_after b
                 end
           then Some (i, entry) else best
       end.

Fixpoint best_key_loop (usage : webauth_key_usage) (hint now : Z)
    (i : nat) (rest : list webauth_keyring_entry)
    (best : option (nat * webauth_keyring_entry))
    : option (nat * webauth_keyring_entry) :=
  match rest with
  | [] => best
  | entry :: rest' =>
      best_key_loop usage hint now (S i) rest'
        (best_key_step usage hint now best i entry)
  end.

(** The entry the loop settles on, with its position. *)
Definition best_entry (ring : webauth_keyring) (usage : webauth_key_usage)
    (hint now : Z) : option (nat * webauth_keyring_entry) :=
  best_key_loop usage hint now 0%nat ring None.

(** [webauth_keyring_best_key]: the status and what is stored in [*output]. *)
Definition webauth_keyring_best_key (ring : webauth_keyring)
    (usage : webauth_key_usage) (hint now : Z)
    : status * option webauth_key :=
  match best_entry ring usage hint now with
  | None => (WA_ERR_NOT_FOUND, None)
  | Some (_, best) => (WA_ERR_NONE, Some (key best))
  end.

End Keyring.

(** ** Keyring files (lib/keyring.c, second half) *)

(** [struct wai_keyring_entry] and [struct wai_keyring] of lib/internal.h, as
    [webauth_keyring_decode] and [webauth_keyring_encode] use them. *)
Record wai_keyring_entry : Set := {
  wke_creation : Z;
  wke_valid_after : Z;
  wke_key_type : Z;
  wke_key : bytes;
  wke_key_len : Z
}.

Record wai_keyring : Set := {
  wk_version : Z;
  wk_entry_count : Z;
  wk_entry : list wai_keyring_entry
}.

Definition KEYRING_VERSION : Z := 1.

(** The functions of the library that the keyring code calls and that live in
    other files (lib/keys.c, lib/encoding.c with the rule table
    [wai_keyring_encoding]).  [webauth_key_create] takes, besides its C
    arguments, what the random number generator delivers to this call
    ([None] when it fails); it only matters when the key material is NULL.
    The three laws are the library's return convention: a call that stores
    no result does not return [WA_ERR_NONE]. *)
Class KeyringDeps : Type := {
  webauth_key_create :
    option bytes -> Z -> Z -> option bytes -> status + webauth_key;
  webauth_encode : wai_keyring -> status + bytes;
  webauth_decode : bytes -> status + wai_keyring;
  key_create_status : forall rand type size material,
    webauth_key_create rand type size material <> inl WA_ERR_NONE;
  encode_status : forall data, webauth_encode data <> inl WA_ERR_NONE;
  decode_status : forall input, webauth_decode input <> inl WA_ERR_NONE
}.

(** The file system: path to contents. *)
Abbreviation filesystem := (gmap string bytes).

(** How [wai_file_read] fares on a file that exists. *)
Inductive read_outcome : Set := ReadOk | ReadOpenFails | ReadFails.

(** What one call finds in its environment: the clock, the random number
    generator and the outcome of every file operation it may attempt. *)
Record call_env : Set := {
  env_now : Z;
  env_rand : option bytes;
  env_read : read_outcome;
  env_suffix : string;
  env_mktemp : bool;
  env_write : bool;
  env_written : nat;
  env_close : bool;
  env_rename : bool
}.

Inductive webauth_kau_status : Set := WA_KAU_NONE | WA_KAU_CREATE | WA_KAU_UPDATE.

(** Conversion of an integer to the 64-bit signed [time_t], and the value a
    64-bit signed sum wraps to. *)
Definition time_t_of (z : Z) : Z := (z + 2 ^ 63) mod 2 ^ 64 - 2 ^ 63.

(** Modelled from the spec: [wai_file_read] (lib/file-io.c) is missing; the
    spec names its failures FILE_NOT_FOUND, FILE_OPENREAD and FILE_READ. *)
Definition wai_file_read (env : call_env) (path : string) (fs : filesystem)
    : status + bytes :=
  match fs !! path with
  | None => inl WA_ERR_FILE_NOT_FOUND
  | Some buf =>
      match env_read env with
      | ReadOk => inr buf
      | ReadOpenFails => inl WA_ERR_FILE_OPENREAD
      | ReadFails => inl WA_ERR_FILE_READ
      end
  end.

Module KeyringFile.
Import Keyring.

Section WithDeps.
Context `{KeyringDeps}.

(** The call [webauth_key_create(ctx, entry->key_type, entry->key_len,
    entry->key, &key)] of [webauth_keyring_decode]. *)
Definition entry_key (entry : wai_keyring_entry) : status + webauth_key :=
  webauth_key_create None (wke_key_type entry) (wke_key_len entry)
    (Some (wke_key entry)).

(** The loop of [webauth_keyring_decode] over [data.entry[0 .. entry_count)]:
    the first key that cannot be created ends the decode with its status. *)
Fixpoint decode_entries (entries : list wai_keyring_entry)
    (ring : webauth_keyring) : status + webauth_keyring :=
  match entries with
  | [] => inr ring
  | entry :: rest =>
      match entry_key entry with
      | inl s => inl s
      | inr key =>
          decode_entries rest
            (webauth_keyring_add ring (wke_creation entry)
               (wke_valid_after entry) key)
      end
  end.

(** [webauth_keyring_decode]: the status and what [*output] holds on return.
    The decoder of lib/encoding.c yields exactly [entry_count] entries. *)
Definition webauth_keyring_decode (input : bytes)
    : status * option webauth_keyring :=
  match webauth_decode input with
  | inl s => (s, None)
  | inr data =>
      if negb (wk_version data =? KEYRING_VERSION) then
        (WA_ERR_FILE_VERSION, None)
      else
        let ring := webauth_keyring_new (wk_entry_count data) in
        match decode_entries
                (take (Z.to_nat (wk_entry_count data)) (wk_entry data)) ring with
        | inl s => (s, None)
        | inr ring => (WA_ERR_NONE, Some ring)
        end
  end.

(** [webauth_keyring_read] *)
Definition webauth_keyring_read (env : call_env) (path : string)
    (fs : filesystem) : status * option webauth_keyring :=
  match wai_file_read env path fs with
  | inl s => (s, None)
  | inr buf => webauth_keyring_decode buf
  end.

(** The conversion at the head of [webauth_keyring_encode]. *)
Definition wai_of_entry (entry : webauth_keyring_entry) : wai_keyring_entry :=
  {| wke_creation := creation entry;
     wke_valid_after := valid_after entry;
     wke_key_type := key_type (key entry);
     wke_key := key_data (key entry);
     wke_key_len := key_length (key entry) |}.

Definition wai_of_ring (ring : webauth_keyring) : wai_keyring :=
  {| wk_version := KEYRING_VERSION;
     wk_entry_count := Z.of_nat (length ring);
     wk_entry := map wai_of_entry ring |}.

(** [webauth_keyring_encode] *)
Definition webauth_keyring_encode (ring : webauth_keyring) : status + bytes :=
  webauth_encode (wai_of_ring ring).

(** The name [apr_file_mktemp] makes of the template ["%s.XXXXXX"]. *)
Definition temp_name (env : call_env) (path : string) : string :=
  path +:+ "." +:+ env_suffix env.

(** The label [done] of [webauth_keyring_write]: the temporary file is closed
    and removed when the handle [file] is still set. *)
Definition write_done (file : bool) (temp : string) (s : status)
    (fs : filesystem) : status * filesystem :=
  if file then (s, delete temp fs) else (s, fs).

(** [webauth_keyring_write].  [file] is [true] while the C variable [file] is
    not NULL. *)
Definition webauth_keyring_write (env : call_env) (ring : webauth_keyring)
    (path : string) (fs : filesystem) : status * filesystem :=
  let temp := temp_name env path in
  if negb (env_mktemp env && bool_decide (fs !! temp = None)) then
    write_done false temp WA_ERR_FILE_OPENWRITE fs
  else
    let fs := <[temp := []]> fs in
    match webauth_keyring_encode ring with
    | inl s => write_done true temp s fs
    | inr buf =>
        (* apr_file_write_full, then apr_file_close when the write worked *)
        let '(ok, file, fs) :=
          if env_write env then (env_close env, false, <[temp := buf]> fs)
          else (false, true, <[temp := take (env_written env) buf]> fs) in
        if negb ok then write_done file temp WA_ERR_FILE_WRITE fs
        else if negb (env_rename env) then
          write_done file temp WA_ERR_FILE_WRITE fs
        else
          (* apr_file_rename moved the temporary file onto path *)
          write_done file temp WA_ERR_NONE (<[path := buf]> (delete temp fs))
    end.

(** [new_ring]: status, [*ring] and the file system on return.  [*ring] is
    still what the failed read left (NULL) when no key could be made. *)
Definition new_ring (env : call_env) (path : string) (fs : filesystem)
    : status * option webauth_keyring * filesystem :=
  match webauth_key_create (env_rand env) WA_KEY_AES WA_AES_128 None with
  | inl s => (s, None, fs)
  | inr key =>
      let ring := webauth_keyring_new 1 in
      let now := env_now env in
      let ring := webauth_keyring_add ring now now key in
      let '(s, fs) := webauth_keyring_write env ring path fs in
      (s, Some ring, fs)
  end.

(** The test of the loop of [check_ring] on one entry:
    [entry->valid_after + (time_t) lifetime > now], with [lifetime] an
    [unsigned long] converted to [time_t] and the sum taken in [time_t]. *)
Definition still_fresh (lifetime now : Z) (entry : webauth_keyring_entry)
    : bool :=
  time_t_of (valid_after entry + time_t_of lifetime) >? now.

(** [check_ring]: status, the ring (updated in place), [*updated] and the
    file system on return. *)
Definition check_ring (env : call_env) (path : string) (lifetime : Z)
    (ring : webauth_keyring) (updated : webauth_kau_status)
    (fs : filesystem)
    : status * webauth_keyring * webauth_kau_status * filesystem :=
  let now := env_now env in
  if existsb (still_fresh lifetime now) ring then
    (WA_ERR_NONE, ring, updated, fs)
  else
    match webauth_key_create (env_rand env) WA_KEY_AES WA_AES_128 None with
    | inl s => (s, ring, WA_KAU_UPDATE, fs)
    | inr key =>
        let ring := webauth_keyring_add ring now now key in
        let '(s, fs) := webauth_keyring_write env ring path fs in
        (s, ring, WA_KAU_UPDATE, fs)
    end.

(** What [webauth_keyring_auto_update] returns and leaves behind. *)
Record auto_update_result : Type := {
  au_status : status;
  au_ring : option webauth_keyring;
  au_updated : webauth_kau_status;
  au_update_status : status;
  au_fs : filesystem
}.

(** [webauth_keyring_auto_update] *)
Definition webauth_keyring_auto_update (env : call_env) (path : string)
    (create : bool) (lifetime : Z) (fs : filesystem) : auto_update_result :=
  let '(status, ring) := webauth_keyring_read env path fs in
  if negb (bool_decide (status = WA_ERR_NONE)) then
    if negb create || negb (bool_decide (status = WA_ERR_FILE_NOT_FOUND)) then
      {| au_status := status; au_ring := ring; au_updated := WA_KAU_NONE;
         au_update_status := WA_ERR_NONE; au_fs := fs |}
    else
      let '(s, ring, fs) := new_ring env path fs in
      {| au_status := s; au_ring := ring; au_updated := WA_KAU_CREATE;
         au_update_status := WA_ERR_NONE; au_fs := fs |}
  else
    match ring with
    | Some r =>
        if lifetime >? 0 then
          let '(us, r, updated, fs) :=
            check_ring env path lifetime r WA_KAU_NONE fs in
          {| au_status := status; au_ring := Some r; au_updated := updated;
             au_update_status := us; au_fs := fs |}
        else
          {| au_status := status; au_ring := Some r;
             au_updated := WA_KAU_NONE; au_update_status := WA_ERR_NONE;
             au_fs := fs |}
    | None =>
        (* not reached: a read that succeeds has stored a keyring *)
        {| au_status := status; au_ring := None; au_updated := WA_KAU_NONE;
           au_update_status := WA_ERR_NONE; au_fs := fs |}
    end.

End WithDeps.
End KeyringFile.

(** ** Tokens (webauth/tokens.h, lib/token-encode.c) *)

(** [enum webauth_token_type]; [WA_TOKEN_ANY] is 255. *)
Inductive webauth_token_type : Set :=
  | WA_TOKEN_UNKNOWN
  | WA_TOKEN_APP
  | WA_TOKEN_CRED
  | WA_TOKEN_ERROR
  | WA_TOKEN_ID
  | WA_TOKEN_LOGIN
  | WA_TOKEN_PROXY
  | WA_TOKEN_REQUEST
  | WA_TOKEN_WEBKDC_FACTOR
  | WA_TOKEN_WEBKDC_PROXY
  | WA_TOKEN_WEBKDC_SERVICE
  | WA_TOKEN_ANY.

#[global] Instance webauth_token_type_eq_dec : EqDecision webauth_token_type.
Proof. solve_decision. Defined.

Definition token_type_code (type : webauth_token_type) : Z :=
  match type with
  | WA_TOKEN_UNKNOWN => 0
  | WA_TOKEN_APP => 1
  | WA_TOKEN_CRED => 2
  | WA_TOKEN_ERROR => 3
  | WA_TOKEN_ID => 4
  | WA_TOKEN_LOGIN => 5
  | WA_TOKEN_PROXY => 6
  | WA_TOKEN_REQUEST => 7
  | WA_TOKEN_WEBKDC_FACTOR => 8
  | WA_TOKEN_WEBKDC_PROXY => 9
  | WA_TOKEN_WEBKDC_SERVICE => 10
  | WA_TOKEN_ANY => 255
  end.

(** The members of the token structures that the checks read.  A string or
    data pointer is an [option]; a data pointer comes with its length. *)
Record webauth_token_app : Set := {
  app_subject : option string;
  app_authz_subject : option string;
  app_last_used : Z;
  app_session_key : option bytes;
  app_session_key_len : Z;
  app_initial_factors : option string;
  app_session_factors : option string;
  app_loa : Z;
  app_expiration : Z
}.

Record webauth_token_cred : Set := {
  cred_subject : option string;
  cred_type : option string;
  cred_service : option string;
  cred_data : option bytes;
  cred_data_len : Z;
  cred_expiration : Z
}.

Record webauth_token_error : Set := {
  error_code : Z;
  error_message : option string
}.

Record webauth_token_id : Set := {
  id_subject : option string;
  id_auth : option string;
  id_auth_data : option bytes;
  id_auth_data_len : Z;
  id_expiration : Z
}.

Record webauth_token_login : Set := {
  login_username : option string;
  login_password : option string;
  login_otp : option string;
  login_otp_type : option string
}.

Record webauth_token_proxy : Set := {
  proxy_subject : option string;
  proxy_type : option string;
  proxy_webkdc_proxy : option bytes;
  proxy_webkdc_proxy_len : Z;
  proxy_expiration : Z
}.

Record webauth_token_request : Set := {
  request_type : option string;
  request_auth : option string;
  request_proxy_type : option string;
  request_state : option bytes;
  request_return_url : option string;
  request_options : option string;
  request_initial_factors : option string;
  request_session_factors : option string;
  request_command : option string
}.

Record webauth_token_webkdc_factor : Set := {
  wkfactor_subject : option string;
  wkfactor_initial_factors : option string;
  wkfactor_session_factors : option string;
  wkfactor_expiration : Z
}.

Record webauth_token_webkdc_proxy : Set := {
  wkproxy_subject : option string;
  wkproxy_proxy_type : option string;
  wkproxy_proxy_subject : option string;
  wkproxy_expiration : Z
}.

Record webauth_token_webkdc_service : Set := {
  wkservice_subject : option string;
  wkservice_session_key : option bytes;
  wkservice_session_key_len : Z;
  wkservice_expiration : Z
}.

(** [struct webauth_token]: the type tag and the member of the union it
    selects.  The two tags that select no member carry no data. *)
Inductive webauth_token : Set :=
  | TokenApp (app : webauth_token_app)
  | TokenCred (cred : webauth_token_cred)
  | TokenError (error : webauth_token_error)
  | TokenId (id : webauth_token_id)
  | TokenLogin (login : webauth_token_login)
  | TokenProxy (proxy : webauth_token_proxy)
  | TokenRequest (request : webauth_token_request)
  | TokenWebkdcFactor (webkdc_factor : webauth_token_webkdc_factor)
  | TokenWebkdcProxy (webkdc_proxy : webauth_token_webkdc_proxy)
  | TokenWebkdcService (webkdc_service : webauth_token_webkdc_service)
  | TokenUnknown
  | TokenAny.

Definition token_type (token : webauth_token) : webauth_token_type :=
  match token with
  | TokenApp _ => WA_TOKEN_APP
  | TokenCred _ => WA_TOKEN_CRED
  | TokenError _ => WA_TOKEN_ERROR
  | TokenId _ => WA_TOKEN_ID
  | TokenLogin _ => WA_TOKEN_LOGIN
  | TokenProxy _ => WA_TOKEN_PROXY
  | TokenRequest _ => WA_TOKEN_REQUEST
  | TokenWebkdcFactor _ => WA_TOKEN_WEBKDC_FACTOR
  | TokenWebkdcProxy _ => WA_TOKEN_WEBKDC_PROXY
  | TokenWebkdcService _ => WA_TOKEN_WEBKDC_SERVICE
  | TokenUnknown => WA_TOKEN_UNKNOWN
  | TokenAny => WA_TOKEN_ANY
  end.

(** The expiration member of the kinds that have one. *)
Definition token_expiration (token : webauth_token) : option Z :=
  match token with
  | TokenApp t => Some (app_expiration t)
  | TokenCred t => Some (cred_expiration t)
  | TokenId t => Some (id_expiration t)
  | TokenProxy t => Some (proxy_expiration t)
  | TokenWebkdcFactor t => Some (wkfactor_expiration t)
  | TokenWebkdcProxy t => Some (wkproxy_expiration t)
  | TokenWebkdcService t => Some (wkservice_expiration t)
  | _ => None
  end.

Inductive encode_mode : Set := ENCODE | DECODE.

Module Token.

Definition token_name : list string :=
  [ "unknown"; "app"; "cred"; "error"; "id"; "login"; "proxy"; "req";
    "webkdc-factor"; "webkdc-proxy"; "webkdc-service" ]%string.

(** [webauth_token_type_string] *)
Definition webauth_token_type_string (type : webauth_token_type)
    : option string :=
  if token_type_code type >=? Z.of_nat (length token_name) then None
  else token_name !! Z.to_nat (token_type_code type).

(** The value of [enum webauth_token_type] with a given code below 11. *)
Definition token_type_of_code (code : nat) : webauth_token_type :=
  match code with
  | 1 => WA_TOKEN_APP
  | 2 => WA_TOKEN_CRED
  | 3 => WA_TOKEN_ERROR
  | 4 => WA_TOKEN_ID
  | 5 => WA_TOKEN_LOGIN
  | 6 => WA_TOKEN_PROXY
  | 7 => WA_TOKEN_REQUEST
  | 8 => WA_TOKEN_WEBKDC_FACTOR
  | 9 => WA_TOKEN_WEBKDC_PROXY
  | 10 => WA_TOKEN_WEBKDC_SERVICE
  | _ => WA_TOKEN_UNKNOWN
  end%nat.

(** The loop of [webauth_token_type_code] over [token_name] from index [i]:
    the first index whose name compares equal. *)
Fixpoint type_code_loop (type : string) (names : list string) (i : nat)
    : option nat :=
  match names with
  | [] => None
  | name :: rest =>
      if String.eqb type name then Some i else type_code_loop type rest (S i)
  end.

(** [webauth_token_type_code] *)
Definition webauth_token_type_code (type : string) : webauth_token_type :=
  match type_code_loop type token_name 0 with
  | Some i => token_type_of_code i
  | None => WA_TOKEN_UNKNOWN
  end.

(** A check macro returns from the enclosing function as soon as it fails:
    [c1 ;; c2] runs [c2] only when [c1] is [WA_ERR_NONE]. *)
Definition and_then (c1 c2 : status) : status :=
  match c1 with
  | WA_ERR_NONE => c2
  | s => s
  end.

Declare Scope check_scope.
Notation "c1 ;; c2" := (and_then c1 c2)
  (at level 100, c2 at level 200, only parsing) : check_scope.
Local Open Scope check_scope.

Definition CHECK_DATA (attr : option bytes) (attr_len : Z) : status :=
  match attr with
  | None => WA_ERR_CORRUPT
  | Some _ => if attr_len =? 0 then WA_ERR_CORRUPT else WA_ERR_NONE
  end.

Definition CHECK_NUM (attr : Z) : status :=
  if attr =? 0 then WA_ERR_CORRUPT else WA_ERR_NONE.

Definition CHECK_STR {A : Type} (attr : option A) : status :=
  match attr with
  | None => WA_ERR_CORRUPT
  | Some _ => WA_ERR_NONE
  end.

Definition CHECK_NULL {A : Type} (attr : option A) : status :=
  match attr with
  | None => WA_ERR_NONE
  | Some _ => WA_ERR_CORRUPT
  end.

Definition CHECK_ZERO (attr : Z) : status :=
  if attr =? 0 then WA_ERR_NONE else WA_ERR_CORRUPT.

(** [check_expiration] *)
Definition check_expiration (now expiration : Z) : status :=
  if expiration <? now then WA_ERR_TOKEN_EXPIRED else WA_ERR_NONE.

Definition CHECK_EXP (now attr : Z) (mode : encode_mode) : status :=
  CHECK_NUM attr ;;
  match mode with
  | DECODE => check_expiration now attr
  | ENCODE => WA_ERR_NONE
  end.

(** [strcmp(p, lit) == 0] for a pointer that an earlier check has shown not
    to be NULL. *)
Definition str_is (p : option string) (lit : string) : bool :=
  match p with
  | Some s => String.eqb s lit
  | None => false
  end.

Definition check_cred_type (cred_type : option string) : status :=
  if negb (str_is cred_type "krb5") then WA_ERR_CORRUPT else WA_ERR_NONE.

Definition check_proxy_type (proxy_type : option string) : status :=
  if negb (str_is proxy_type "krb5") then WA_ERR_CORRUPT else WA_ERR_NONE.

Definition check_subject_auth (auth : option string) : status :=
  if negb (str_is auth "krb5") && negb (str_is auth "webkdc")
  then WA_ERR_CORRUPT else WA_ERR_NONE.

Definition check_app (now : Z) (app : webauth_token_app)
    (mode : encode_mode) : status :=
  CHECK_EXP now (app_expiration app) mode ;;
  match app_session_key app with
  | None => CHECK_STR (app_subject app)
  | Some _ =>
      CHECK_NULL (app_subject app) ;;
      CHECK_NULL (app_authz_subject app) ;;
      CHECK_ZERO (app_last_used app) ;;
      CHECK_NULL (app_initial_factors app) ;;
      CHECK_NULL (app_session_factors app) ;;
      CHECK_ZERO (app_loa app)
  end.

Definition check_cred (now : Z) (cred : webauth_token_cred)
    (mode : encode_mode) : status :=
  CHECK_STR (cred_subject cred) ;;
  CHECK_STR (cred_type cred) ;;
  CHECK_STR (cred_service cred) ;;
  CHECK_DATA (cred_data cred) (cred_data_len cred) ;;
  CHECK_EXP now (cred_expiration cred) mode ;;
  check_cred_type (cred_type cred).

Definition check_error (error : webauth_token_error) (mode : encode_mode)
    : status :=
  CHECK_NUM (error_code error) ;;
  CHECK_STR (error_message error).

Definition check_id (now : Z) (id : webauth_token_id) (mode : encode_mode)
    : status :=
  CHECK_STR (id_auth id) ;;
  CHECK_EXP now (id_expiration id) mode ;;
  (if str_is (id_auth id) "webkdc" then CHECK_STR (id_subject id)
   else WA_ERR_NONE) ;;
  (if str_is (id_auth id) "krb5"
   then CHECK_DATA (id_auth_data id) (id_auth_data_len id)
   else WA_ERR_NONE) ;;
  check_subject_auth (id_auth id).

Definition check_login (login : webauth_token_login) (mode : encode_mode)
    : status :=
  CHECK_STR (login_username login) ;;
  match login_password login, login_otp login with
  | None, None => WA_ERR_CORRUPT
  | Some _, Some _ => WA_ERR_CORRUPT
  | Some _, None => CHECK_NULL (login_otp_type login)
  | None, Some _ => WA_ERR_NONE
  end.

Definition check_proxy (now : Z) (proxy : webauth_token_proxy)
    (mode : encode_mode) : status :=
  CHECK_STR (proxy_subject proxy) ;;
  CHECK_STR (proxy_type proxy) ;;
  CHECK_DATA (proxy_webkdc_proxy proxy) (proxy_webkdc_proxy_len proxy) ;;
  CHECK_EXP now (proxy_expiration proxy) mode ;;
  check_proxy_type (proxy_type proxy).

Definition check_request (request : webauth_token_request)
    (mode : encode_mode) : status :=
  match request_command request with
  | Some _ =>
      CHECK_NULL (request_type request) ;;
      CHECK_NULL (request_auth request) ;;
      CHECK_NULL (request_proxy_type request) ;;
      CHECK_NULL (request_state request) ;;
      CHECK_NULL (request_return_url request) ;;
      CHECK_NULL (request_options request) ;;
      CHECK_NULL (request_initial_factors request) ;;
      CHECK_NULL (request_session_factors request)
  | None =>
      CHECK_STR (request_type request) ;;
      CHECK_STR (request_return_url request) ;;
      if str_is (request_type request) "id" then
        CHECK_STR (request_auth request) ;;
        check_subject_auth (request_auth request)
      else if str_is (request_type request) "proxy" then
        CHECK_STR (request_proxy_type request) ;;
        check_proxy_type (request_proxy_type request)
      else WA_ERR_CORRUPT
  end.

Definition check_webkdc_factor (now : Z)
    (webkdc_factor : webauth_token_webkdc_factor) (mode : encode_mode)
    : status :=
  CHECK_STR (wkfactor_subject webkdc_factor) ;;
  CHECK_EXP now (wkfactor_expiration webkdc_factor) mode ;;
  match wkfactor_initial_factors webkdc_factor,
        wkfactor_session_factors webkdc_factor with
  | None, None => WA_ERR_CORRUPT
  | _, _ => WA_ERR_NONE
  end.

Definition check_webkdc_proxy (now : Z)
    (webkdc_proxy : webauth_token_webkdc_proxy) (mode : encode_mode)
    : status :=
  CHECK_STR (wkproxy_subject webkdc_proxy) ;;
  CHECK_STR (wkproxy_proxy_type webkdc_proxy) ;;
  CHECK_STR (wkproxy_proxy_subject webkdc_proxy) ;;
  CHECK_EXP now (wkproxy_expiration webkdc_proxy) mode ;;
  if negb (str_is (wkproxy_proxy_type webkdc_proxy) "krb5")
     && negb (str_is (wkproxy_proxy_type webkdc_proxy) "remuser")
     && negb (str_is (wkproxy_proxy_type webkdc_proxy) "otp")
  then WA_ERR_CORRUPT else WA_ERR_NONE.

Definition check_webkdc_service (now : Z)
    (webkdc_service : webauth_token_webkdc_service) (mode : encode_mode)
    : status :=
  CHECK_STR (wkservice_subject webkdc_service) ;;
  CHECK_DATA (wkservice_session_key webkdc_service)
             (wkservice_session_key_len webkdc_service) ;;
  CHECK_EXP now (wkservice_expiration webkdc_service) mode.

(** The rule tables of lib/token-rules that [wai_token_encoding] hands out,
    by name. *)
Inductive wai_encoding_rules : Set :=
  | wai_token_app_encoding
  | wai_token_cred_encoding
  | wai_token_error_encoding
  | wai_token_id_encoding
  | wai_token_login_encoding
  | wai_token_proxy_encoding
  | wai_token_request_encoding
  | wai_token_webkdc_factor_encoding
  | wai_token_webkdc_proxy_encoding
  | wai_token_webkdc_service_encoding.

(** [wai_token_encoding]: the status and the rule table stored in [*rules].
    The pointer stored in [*data] is the member of the union that the type
    selects, which the embedding keeps inside the token. *)
Definition wai_token_encoding (token : webauth_token)
    : status * option wai_encoding_rules :=
  match token with
  | TokenApp _ => (WA_ERR_NONE, Some wai_token_app_encoding)
  | TokenCred _ => (WA_ERR_NONE, Some wai_token_cred_encoding)
  | TokenError _ => (WA_ERR_NONE, Some wai_token_error_encoding)
  | TokenId _ => (WA_ERR_NONE, Some wai_token_id_encoding)
  | TokenLogin _ => (WA_ERR_NONE, Some wai_token_login_encoding)
  | TokenProxy _ => (WA_ERR_NONE, Some wai_token_proxy_encoding)
  | TokenRequest _ => (WA_ERR_NONE, Some wai_token_request_encoding)
  | TokenWebkdcFactor _ => (WA_ERR_NONE, Some wai_token_webkdc_factor_encoding)
  | TokenWebkdcProxy _ => (WA_ERR_NONE, Some wai_token_webkdc_proxy_encoding)
  | TokenWebkdcService _ =>
      (WA_ERR_NONE, Some wai_token_webkdc_service_encoding)
  | TokenUnknown | TokenAny => (WA_ERR_INVALID, None)
  end.

(** [check_token] *)
Definition check_token (now : Z) (token : webauth_token) (mode : encode_mode)
    : status :=
  match token with
  | TokenApp app => check_app now app mode
  | TokenCred cred => check_cred now cred mode
  | TokenError error => check_error error mode
  | TokenId id => check_id now id mode
  | TokenLogin login => check_login login mode
  | TokenProxy proxy => check_proxy now proxy mode
  | TokenRequest request => check_request request mode
  | TokenWebkdcFactor webkdc_factor =>
      check_webkdc_factor now webkdc_factor mode
  | TokenWebkdcProxy webkdc_proxy => check_webkdc_proxy now webkdc_proxy mode
  | TokenWebkdcService webkdc_service =>
      check_webkdc_service now webkdc_service mode
  | TokenUnknown | TokenAny => WA_ERR_INVALID
  end.

End Token.

(** The stages of the token pipeline that live in other files: the attribute
    codec (lib/token-rules, lib/encoding.c), the encryption layer
    (lib/token-crypt.c) and APR's base64.  Encryption reads the clock, to
    select its key, and the random number generator, for the nonce. *)
Class TokenDeps : Type := {
  wai_encode_token : webauth_token -> status + bytes;
  wai_decode_token : bytes -> status + webauth_token;
  webauth_token_encrypt :
    Z -> option bytes -> bytes -> webauth_keyring -> status + bytes;
  webauth_token_decrypt :
    Z -> bytes -> option webauth_keyring -> status + bytes;
  apr_base64_encode : bytes -> string;
  apr_base64_decode : string -> bytes
}.

Module TokenCodec.
Import Token.

Section WithDeps.
Context `{TokenDeps}.

(** [webauth_token_decode_raw]: the status and what [*decoded] holds. *)
Definition webauth_token_decode_raw (now : Z) (type : webauth_token_type)
    (token : bytes) (ring : option webauth_keyring)
    : status * option webauth_token :=
  let type_string := webauth_token_type_string type in
  if bool_decide (type_string = None) && bool_decide (type <> WA_TOKEN_ANY)
  then (WA_ERR_INVALID, None)
  else
    match webauth_token_decrypt now token ring with
    | inl s => (s, None)
    | inr attrs =>
        match wai_decode_token attrs with
        | inl s => (s, None)
        | inr out =>
            if bool_decide (type <> WA_TOKEN_ANY)
               && bool_decide (type <> token_type out)
            then (WA_ERR_CORRUPT, None)
            else
              match check_token now out DECODE with
              | WA_ERR_NONE => (WA_ERR_NONE, Some out)
              | s => (s, None)
              end
        end
    end.

(** [webauth_token_decode] *)
Definition webauth_token_decode (now : Z) (type : webauth_token_type)
    (token : option string) (ring : option webauth_keyring)
    : status * option webauth_token :=
  match token with
  | None => (WA_ERR_CORRUPT, None)
  | Some token =>
      let input := apr_base64_decode token in
      webauth_token_decode_raw now type input ring
  end.

(** [webauth_token_encode_raw]: the status and the token stored on success.
    [rand] is what the random number generator delivers to the call. *)
Definition webauth_token_encode_raw (now : Z) (rand : option bytes)
    (data : webauth_token) (ring : option webauth_keyring)
    : status * option bytes :=
  match ring with
  | None => (WA_ERR_BAD_KEY, None)
  | Some ring =>
      match check_token now data ENCODE with
      | WA_ERR_NONE =>
          match wai_encode_token data with
          | inl s => (s, None)
          | inr attrs =>
              match webauth_token_encrypt now rand attrs ring with
              | inl s => (s, None)
              | inr output => (WA_ERR_NONE, Some output)
              end
          end
      | s => (s, None)
      end
  end.

(** [webauth_token_encode] *)
Definition webauth_token_encode (now : Z) (rand : option bytes)
    (data : webauth_token) (ring : option webauth_keyring)
    : status * option string :=
  match webauth_token_encode_raw now rand data ring with
  | (WA_ERR_NONE, Some raw) => (WA_ERR_NONE, Some (apr_base64_encode raw))
  | (status, _) => (status, None)
  end.

End WithDeps.
End TokenCodec.

(** ** Reference instances of the missing stages

    The theorems below hold for every [KeyringDeps] and [TokenDeps].  The
    instances of this part only serve to run the code on concrete inputs in
    the examples. *)

(** Modelled from the spec: the attribute stream of section 4.1, records
    [name '=' value ';'] with a backslash before a literal [;] or
    backslash, numbers in ASCII decimal. *)
Module AttrStream.

Definition byte_is (a b : byte) : bool := Byte.eqb a b.

Fixpoint bytes_eqb (a b : bytes) : bool :=
  match a, b with
  | [], [] => true
  | x :: a', y :: b' => Byte.eqb x y && bytes_eqb a' b'
  | _, _ => false
  end.

(** ASCII decimal of an unsigned number. *)
Fixpoint decimal_digits (fuel : nat) (n : N) (acc : bytes) : bytes :=
  let digit := default x30 (Byte.of_N (48 + n mod 10)) in
  match fuel with
  | O => digit :: acc
  | S fuel' =>
      if (n <? 10)%N then digit :: acc
      else decimal_digits fuel' (n / 10) (digit :: acc)
  end.

Definition encode_number (z : Z) : bytes :=
  decimal_digits (N.to_nat (N.log2 (Z.to_N z))) (Z.to_N z) [].

Definition decode_digit (b : byte) : option N :=
  let n := Byte.to_N b in
  if ((48 <=? n) && (n <=? 57))%N then Some (n - 48)%N else None.

Fixpoint decode_digits (input : bytes) (acc : N) : option N :=
  match input with
  | [] => Some acc
  | b :: rest =>
      match decode_digit b with
      | Some d => decode_digits rest (acc * 10 + d)%N
      | None => None
      end
  end.

Definition decode_number (input : bytes) : option Z :=
  match input with
  | [] => None
  | _ => Z.of_N <$> decode_digits input 0%N
  end.

(** One record [name '=' value ';'], with [\] before a literal [;] or [\]. *)
Definition escape (value : bytes) : bytes :=
  flat_map (fun b => if byte_is b x3b || byte_is b x5c then [x5c; b] else [b])
    value.

Definition encode_attr (attr : bytes * bytes) : bytes :=
  attr.1 ++ [x3d] ++ escape attr.2 ++ [x3b].

Definition encode_attrs (attrs : list (bytes * bytes)) : bytes :=
  flat_map encode_attr attrs.

Inductive parser_state : Set :=
  | InName (name : bytes)
  | InValue (name value : bytes)
  | Escaped (name value : bytes).

Fixpoint parse_attrs (input : bytes) (st : parser_state)
    (acc : list (bytes * bytes)) : option (list (bytes * bytes)) :=
  match input, st with
  | [], InName [] => Some (rev acc)
  | [], _ => None
  | b :: rest, InName name =>
      if byte_is b x3d then parse_attrs rest (InValue name []) acc
      else parse_attrs rest (InName (name ++ [b])) acc
  | b :: rest, InValue name value =>
      if byte_is b x5c then parse_attrs rest (Escaped name value) acc
      else if byte_is b x3b then
        parse_attrs rest (InName []) ((name, value) :: acc)
      else parse_attrs rest (InValue name (value ++ [b])) acc
  | b :: rest, Escaped name value =>
      parse_attrs rest (InValue name (value ++ [b])) acc
  end.

Definition decode_attrs (input : bytes) : option (list (bytes * bytes)) :=
  parse_attrs input (InName []) [].

Fixpoint find_attr (name : bytes) (attrs : list (bytes * bytes))
    : option bytes :=
  match attrs with
  | [] => None
  | (n, v) :: rest => if bytes_eqb n name then Some v else find_attr name rest
  end.

Definition find_number (name : bytes) (attrs : list (bytes * bytes))
    : option Z :=
  find_attr name attrs ≫= decode_number.

Definition indexed (name : string) (i : nat) : bytes :=
  String.list_byte_of_string name ++ encode_number (Z.of_nat i).

End AttrStream.

(** Modelled from the spec: the keyring file format of section 6.1 ([v], [n],
    then [ct<i>], [va<i>], [kt<i>], [kd<i>] for each entry, unknown attributes
    ignored) and the key constructor of section 3 (type AES, length 16, 24 or
    32, random material on request).  The spec does not name the status of
    an unsupported type or length; [WA_ERR_INVALID] stands for it here. *)
Module KeyringModel.
Import Keyring KeyringFile AttrStream.

Definition encode_entry (i : nat) (entry : wai_keyring_entry)
    : list (bytes * bytes) :=
  [ (indexed "ct" i, encode_number (wke_creation entry));
    (indexed "va" i, encode_number (wke_valid_after entry));
    (indexed "kt" i, encode_number (wke_key_type entry));
    (indexed "kd" i, take (Z.to_nat (wke_key_len entry)) (wke_key entry)) ].

Definition encode_keyring (data : wai_keyring) : status + bytes :=
  inr (encode_attrs
         ([ (String.list_byte_of_string "v", encode_number (wk_version data));
            (String.list_byte_of_string "n", encode_number (wk_entry_count data)) ]
          ++ flat_map (fun ie => encode_entry ie.1 ie.2)
               (imap pair (take (Z.to_nat (wk_entry_count data)) (wk_entry data))))).

Definition decode_entry (attrs : list (bytes * bytes)) (i : nat)
    : option wai_keyring_entry :=
  ct ← find_number (indexed "ct" i) attrs;
  va ← find_number (indexed "va" i) attrs;
  kt ← find_number (indexed "kt" i) attrs;
  kd ← find_attr (indexed "kd" i) attrs;
  Some {| wke_creation := ct; wke_valid_after := va; wke_key_type := kt;
          wke_key := kd; wke_key_len := Z.of_nat (length kd) |}.

Definition decode_keyring (input : bytes) : status + wai_keyring :=
  match
    attrs ← decode_attrs input;
    v ← find_number (String.list_byte_of_string "v") attrs;
    n ← find_number (String.list_byte_of_string "n") attrs;
    entries ← mapM (decode_entry attrs) (seq 0 (Z.to_nat n));
    Some {| wk_version := v; wk_entry_count := n; wk_entry := entries |}
  with
  | Some data => inr data
  | None => inl WA_ERR_CORRUPT
  end.

Definition key_create (rand : option bytes) (type size : Z)
    (material : option bytes) : status + webauth_key :=
  if negb (type =? WA_KEY_AES) then inl WA_ERR_INVALID
  else if negb ((size =? WA_AES_128) || (size =? WA_AES_192)
                || (size =? WA_AES_256)) then inl WA_ERR_INVALID
  else
    match material, rand with
    | Some m, _ =>
        inr {| key_type := type; key_length := size;
               key_data := take (Z.to_nat size) m |}
    | None, Some r =>
        inr {| key_type := type; key_length := size;
               key_data := take (Z.to_nat size) r |}
    | None, None => inl WA_ERR_RAND_FAILURE
    end.

Lemma key_create_reports rand type size material :
  key_create rand type size material <> inl WA_ERR_NONE.
Proof.
  unfold key_create.
  repeat case_match; discriminate.
Qed.

Lemma encode_keyring_reports data : encode_keyring data <> inl WA_ERR_NONE.
Proof. discriminate. Qed.

Lemma decode_keyring_reports input : decode_keyring input <> inl WA_ERR_NONE.
Proof. unfold decode_keyring. case_match; discriminate. Qed.

Definition deps : KeyringDeps :=
  {| webauth_key_create := key_create;
     webauth_encode := encode_keyring;
     webauth_decode := decode_keyring;
     key_create_status := key_create_reports;
     encode_status := encode_keyring_reports;
     decode_status := decode_keyring_reports |}.

End KeyringModel.


(** Modelled from the spec: RFC 4648 base64 without line breaks (section 6.3),
    for APR's [apr_base64_encode] and [apr_base64_decode]. *)
Module Base64.

Definition alphabet : list Ascii.ascii :=
  String.list_ascii_of_string
    "ABCDEFGHIJKLMNOPQRSTUVWXYZabcdefghijklmnopqrstuvwxyz0123456789+/".

Definition sextet_char (n : N) : Ascii.ascii :=
  nth (N.to_nat (n mod 64)) alphabet "="%char.

Definition pad : Ascii.ascii := "="%char.

Fixpoint encode_chars (input : bytes) : list Ascii.ascii :=
  match input with
  | [] => []
  | [a] =>
      let n := (Byte.to_N a * 65536)%N in
      [sextet_char (n / 262144); sextet_char (n / 4096); pad; pad]
  | [a; b] =>
      let n := (Byte.to_N a * 65536 + Byte.to_N b * 256)%N in
      [sextet_char (n / 262144); sextet_char (n / 4096);
       sextet_char (n / 64); pad]
  | a :: b :: c :: rest =>
      let n := (Byte.to_N a * 65536 + Byte.to_N b * 256 + Byte.to_N c)%N in
      sextet_char (n / 262144) :: sextet_char (n / 4096)
        :: sextet_char (n / 64) :: sextet_char n :: encode_chars rest
  end.

Definition encode (input : bytes) : string :=
  String.string_of_list_ascii (encode_chars input).

Fixpoint char_index (c : Ascii.ascii) (l : list Ascii.ascii) (i : N)
    : option N :=
  match l with
  | [] => None
  | x :: l' => if Ascii.eqb c x then Some i else char_index c l' (i + 1)%N
  end.

(** The sextets up to the first character outside the alphabet. *)
Fixpoint sextets (input : list Ascii.ascii) : list N :=
  match input with
  | [] => []
  | c :: rest =>
      match char_index c alphabet 0%N with
      | Some n => n :: sextets rest
      | None => []
      end
  end.

Definition byte_of (n : N) : byte := default x00 (Byte.of_N (n mod 256)).

Fixpoint decode_sextets (input : list N) : bytes :=
  match input with
  | a :: b :: c :: d :: rest =>
      let n := (a * 262144 + b * 4096 + c * 64 + d)%N in
      byte_of (n / 65536) :: byte_of (n / 256) :: byte_of n
        :: decode_sextets rest
  | [a; b; c] =>
      let n := (a * 262144 + b * 4096 + c * 64)%N in
      [byte_of (n / 65536); byte_of (n / 256)]
  | [a; b] =>
      let n := (a * 262144 + b * 4096)%N in
      [byte_of (n / 65536)]
  | _ => []
  end.

Definition decode (input : string) : bytes :=
  decode_sextets (sextets (String.list_ascii_of_string input)).

End Base64.

(** A stand-in for the token codec and the encryption layer, enough to run
    the pipeline on id tokens.  The envelope it builds has the hint and the
    nonce in front of the attribute stream and protects nothing. *)
Module TokenModel.
Import Keyring AttrStream.

Definition name (s : string) : bytes := String.list_byte_of_string s.

Definition string_attr (n : string) (v : option string)
    : list (bytes * bytes) :=
  match v with
  | Some s => [(name n, String.list_byte_of_string s)]
  | None => []
  end.

Definition data_attr (n : string) (v : option bytes) (len : Z)
    : list (bytes * bytes) :=
  match v with
  | Some d => [(name n, take (Z.to_nat len) d)]
  | None => []
  end.

(** The attributes of an id token; the other kinds are not covered. *)
Definition encode_token (token : webauth_token) : status + bytes :=
  match token with
  | TokenId id =>
      inr (encode_attrs
             ([(name "t", name "id")]
              ++ string_attr "s" (id_subject id)
              ++ string_attr "sa" (id_auth id)
              ++ data_attr "sd" (id_auth_data id) (id_auth_data_len id)
              ++ [(name "et", encode_number (id_expiration id))]))
  | _ => inl WA_ERR_INVALID
  end.

Definition decode_token (input : bytes) : status + webauth_token :=
  match decode_attrs input with
  | None => inl WA_ERR_CORRUPT
  | Some attrs =>
      if bytes_eqb (default [] (find_attr (name "t") attrs)) (name "id") then
        let sd := find_attr (name "sd") attrs in
        inr (TokenId
               {| id_subject :=
                    String.string_of_list_byte <$> find_attr (name "s") attrs;
                  id_auth :=
                    String.string_of_list_byte <$> find_attr (name "sa") attrs;
                  id_auth_data := sd;
                  id_auth_data_len := from_option (Z.of_nat ∘ length) 0 sd;
                  id_expiration :=
                    default 0 (find_number (name "et") attrs) |})
      else inl WA_ERR_CORRUPT
  end.

(** A stand-in for the envelope: the first four bytes of the key as the hint,
    the nonce, then the attribute stream as it is.  It selects keys the way
    the spec says and protects nothing. *)
Definition hint_of (k : webauth_key) : bytes := take 4 (key_data k).

Definition encrypt (now : Z) (rand : option bytes) (attrs : bytes)
    (ring : webauth_keyring) : status + bytes :=
  match webauth_keyring_best_key ring WA_KEY_ENCRYPT 0 now, rand with
  | (WA_ERR_NONE, Some k), Some nonce =>
      inr (hint_of k ++ take 16 nonce ++ attrs)
  | (WA_ERR_NONE, Some k), None => inl WA_ERR_RAND_FAILURE
  | _, _ => inl WA_ERR_BAD_KEY
  end.

Definition decrypt (now : Z) (input : bytes) (ring : option webauth_keyring)
    : status + bytes :=
  match ring with
  | None => inl WA_ERR_BAD_KEY
  | Some ring =>
      if existsb (fun e => bytes_eqb (hint_of (key e)) (take 4 input)) ring
      then inr (drop 20 input)
      else inl WA_ERR_BAD_HMAC
  end.

Definition deps : TokenDeps :=
  {| wai_encode_token := encode_token;
     wai_decode_token := decode_token;
     webauth_token_encrypt := encrypt;
     webauth_token_decrypt := decrypt;
     apr_base64_encode := Base64.encode;
     apr_base64_decode := Base64.decode |}.

End TokenModel.


(** ** Statements about the code *)

Import Keyring KeyringFile Token TokenCodec.

(** The key [k] handed out belongs to the entry with the greatest
    [valid_after] among those at or before [now]; of several such entries it
    is the one inserted first. *)
Definition picks_earliest_maximum (now : Z) (ring : webauth_keyring)
    (k : webauth_key) : Prop :=
  exists (i : nat) (e : webauth_keyring_entry),
    ring !! i = Some e /\ key e = k /\ valid_after e <= now /\
    (forall (j : nat) e', ring !! j = Some e' -> valid_after e' <= now ->
       valid_after e' <= valid_after e) /\
    (forall (j : nat) e', (j < i)%nat -> ring !! j = Some e' ->
       valid_after e' <= now -> valid_after e' < valid_after e).

(** The same with ties going to the entry inserted last. *)
Definition picks_latest_maximum (now : Z) (ring : webauth_keyring)
    (k : webauth_key) : Prop :=
  exists (i : nat) (e : webauth_keyring_entry),
    ring !! i = Some e /\ key e = k /\ valid_after e <= now /\
    (forall (j : nat) e', ring !! j = Some e' -> valid_after e' <= now ->
       valid_after e' <= valid_after e) /\
    (forall (j : nat) e', (i < j)%nat -> ring !! j = Some e' ->
       valid_after e' <= now -> valid_after e' < valid_after e).

(** What the loop of [webauth_keyring_best_key] has established for
    encryption once it has gone through the entries [pre]. *)
Definition encrypt_inv (now : Z) (pre : webauth_keyring)
    (best : option (nat * webauth_keyring_entry)) : Prop :=
  match best with
  | None => forall e, e ∈ pre -> now < valid_after e
  | Some (b, be) =>
      pre !! b = Some be /\ valid_after be <= now /\
      (forall (j : nat) e, pre !! j = Some e -> valid_after e <= now ->
         valid_after e <= valid_after be) /\
      (forall (j : nat) e, (j < b)%nat -> pre !! j = Some e ->
         valid_after e <= now -> valid_after e < valid_after be)
  end.

(** For decryption the entries in question are those at or before both the
    current time and the hint; of several with the greatest [valid_after]
    the one inserted last is taken. *)
Definition picks_latest_before_hint (hint now : Z) (ring : webauth_keyring)
    (k : webauth_key) : Prop :=
  exists (i : nat) (e : webauth_keyring_entry),
    ring !! i = Some e /\ key e = k /\
    valid_after e <= now /\ valid_after e <= hint /\
    (forall (j : nat) e', ring !! j = Some e' ->
       valid_after e' <= now -> valid_after e' <= hint ->
       valid_after e' <= valid_after e) /\
    (forall (j : nat) e', (i < j)%nat -> ring !! j = Some e' ->
       valid_after e' <= now -> valid_after e' <= hint ->
       valid_after e' < valid_after e).

(** What the same loop has established for decryption. *)
Definition decrypt_inv (hint now : Z) (pre : webauth_keyring)
    (best : option (nat * webauth_keyring_entry)) : Prop :=
  match best with
  | None => forall e, e ∈ pre -> now < valid_after e \/ hint < valid_after e
  | Some (b, be) =>
      pre !! b = Some be /\ valid_after be <= now /\ valid_after be <= hint /\
      (forall (j : nat) e, pre !! j = Some e ->
         valid_after e <= now -> valid_after e <= hint ->
         valid_after e <= valid_after be) /\
      (forall (j : nat) e, (b < j)%nat -> pre !! j = Some e ->
         valid_after e <= now -> valid_after e <= hint ->
         valid_after e < valid_after be)
  end.

(** The statuses a check of a token can return. *)
Definition check_status (s : status) : Prop :=
  s = WA_ERR_NONE \/ s = WA_ERR_CORRUPT \/ s = WA_ERR_INVALID
  \/ s = WA_ERR_TOKEN_EXPIRED.

(** The statuses of the checks that do not look at the clock. *)
Definition plain_status (s : status) : Prop :=
  s = WA_ERR_NONE \/ s = WA_ERR_CORRUPT.

(** Encoding answers [WA_ERR_BAD_KEY] for every record as soon as the keyring
    is NULL or has no entry. *)
Definition encode_needs_keys (D : TokenDeps) : Prop :=
  forall now rand data ring,
    ring = None \/ ring = Some [] ->
    webauth_token_encode_raw now rand data ring = (WA_ERR_BAD_KEY, None).

(** A call that rotates is followed by a call that does not, for every
    positive [unsigned long] lifetime. *)
Definition rotation_is_idempotent (D : KeyringDeps) : Prop :=
  forall env1 env2 path create lifetime fs,
    0 < lifetime < 2 ^ 64 ->
    let r1 := webauth_keyring_auto_update env1 path create lifetime fs in
    au_status r1 = WA_ERR_NONE ->
    au_updated r1 = WA_KAU_UPDATE ->
    au_update_status r1 = WA_ERR_NONE ->
    env_now env2 = env_now env1 ->
    let r2 :=
      webauth_keyring_auto_update env2 path create lifetime (au_fs r1) in
    au_updated r2 = WA_KAU_NONE /\ au_fs r2 = au_fs r1.

(** *** Concrete inputs of the examples *)

Definition key_a : webauth_key :=
  {| key_type := WA_KEY_AES; key_length := WA_AES_128;
     key_data := repeat x41 16 |}.

Definition key_b : webauth_key :=
  {| key_type := WA_KEY_AES; key_length := WA_AES_128;
     key_data := repeat x42 16 |}.

Definition tied_ring : webauth_keyring :=
  [ {| creation := 1; valid_after := 5; key := key_a |};
    {| creation := 2; valid_after := 5; key := key_b |} ].

Definition sample_ring : webauth_keyring :=
  [ {| creation := 1000; valid_after := 1000; key := key_a |} ].

Definition sample_file : bytes :=
  String.list_byte_of_string
    "v=1;n=1;ct0=1000;va0=1000;kt0=1;kd0=AAAAAAAAAAAAAAAA;".

Definition sample_data : wai_keyring :=
  {| wk_version := 1; wk_entry_count := 1;
     wk_entry := [ {| wke_creation := 1000; wke_valid_after := 1000;
                      wke_key_type := 1; wke_key := repeat x41 16;
                      wke_key_len := 16 |} ] |}.

Definition sample_file_v2 : bytes :=
  String.list_byte_of_string
    "v=2;n=1;ct0=1000;va0=1000;kt0=1;kd0=AAAAAAAAAAAAAAAA;".

Definition sample_data_v2 : wai_keyring :=
  {| wk_version := 2; wk_entry_count := 1; wk_entry := wk_entry sample_data |}.

Definition sample_fs : filesystem := {[ "keyring"%string := sample_file ]}.

Definition sample_env (now : Z) : call_env :=
  {| env_now := now; env_rand := Some (repeat x42 16); env_read := ReadOk;
     env_suffix := "a1B2c3"; env_mktemp := true; env_write := true;
     env_written := 0; env_close := true; env_rename := true |}.

Definition rename_fails_env (now : Z) : call_env :=
  {| env_now := now; env_rand := Some (repeat x42 16); env_read := ReadOk;
     env_suffix := "a1B2c3"; env_mktemp := true; env_write := true;
     env_written := 0; env_close := true; env_rename := false |}.

Definition alice : webauth_token :=
  TokenId {| id_subject := Some "alice"%string;
             id_auth := Some "webkdc"%string;
             id_auth_data := None; id_auth_data_len := 0;
             id_expiration := 4600 |}.

Definition alice_attrs : bytes :=
  String.list_byte_of_string "t=id;s=alice;sa=webkdc;et=4600;".

Definition both_secrets : webauth_token :=
  TokenLogin {| login_username := Some "alice"%string;
                login_password := Some "secret"%string;
                login_otp := Some "123456"%string;
                login_otp_type := None |}.

(** What [webauth_keyring_decode] makes of one entry of the file. *)
Definition decoded_from `{KeyringDeps} (w : wai_keyring_entry)
    (e : webauth_keyring_entry) : Prop :=
  creation e = wke_creation w
  /\ valid_after e = wke_valid_after w
  /\ entry_key w = inr (key e).

(** The id token of the examples sealed at 1000 under [sample_ring], raw and
    in base64. *)
Definition sealed_alice_raw : bytes :=
  match TokenModel.encrypt 1000 (Some (repeat x01 16)) alice_attrs
          sample_ring with
  | inr raw => raw
  | inl _ => []
  end.

Definition sealed_alice : string := Base64.encode sealed_alice_raw.

(** ** Keyrings: selection of the encryption key, insertion *)

Lemma encrypt_inv_step now hint pre best entry :
  encrypt_inv now pre best ->
  encrypt_inv now (pre ++ [entry])
    (best_key_step WA_KEY_ENCRYPT hint now best (length pre) entry).
Proof.
  intros Hinv. unfold best_key_step.
  destruct (Z.gtb_spec (valid_after entry) now) as [Hgt | Hle].
  - destruct best as [[b be] |]; simpl in *.
    + destruct Hinv as (Hb & Hbe & Hmax & Hfirst).
      split; [by apply lookup_app_l_Some |]. split; [done |].
      split.
      * intros j e Hj He. apply lookup_app_Some in Hj as [Hj | [_ Hj]].
        -- eauto.
        -- apply list_lookup_singleton_Some in Hj as [_ <-]. lia.
      * intros j e Hlt Hj He. apply lookup_app_Some in Hj as [Hj | [_ Hj]].
        -- eauto.
        -- apply list_lookup_singleton_Some in Hj as [_ <-]. lia.
    + intros e [He | He]%elem_of_app; [eauto |].
      apply list_elem_of_singleton in He as ->. lia.
  - destruct best as [[b be] |]; simpl in *.
    + destruct Hinv as (Hb & Hbe & Hmax & Hfirst).
      destruct (Z.gtb_spec (valid_after entry) (valid_after be))
        as [Hnew | Hold]; simpl.
      * split; [by rewrite lookup_app_r, Nat.sub_diag |]. split; [done |].
        split.
        -- intros j e Hj He. apply lookup_app_Some in Hj as [Hj | [_ Hj]].
           ++ specialize (Hmax _ _ Hj He). lia.
           ++ apply list_lookup_singleton_Some in Hj as [_ <-]. lia.
        -- intros j e Hlt Hj He.
           apply lookup_app_Some in Hj as [Hj | [Hge _]].
           ++ specialize (Hmax _ _ Hj He). lia.
           ++ lia.
      * split; [by apply lookup_app_l_Some |]. split; [done |].
        split.
        -- intros j e Hj He. apply lookup_app_Some in Hj as [Hj | [_ Hj]].
           ++ eauto.
           ++ apply list_lookup_singleton_Some in Hj as [_ <-]. lia.
        -- intros j e Hlt Hj He.
           apply lookup_app_Some in Hj as [Hj | [Hge _]].
           ++ eauto.
           ++ apply lookup_lt_Some in Hb. lia.
    + split; [by rewrite lookup_app_r, Nat.sub_diag |]. split; [done |].
      split.
      * intros j e Hj He. apply lookup_app_Some in Hj as [Hj | [_ Hj]].
        -- apply list_elem_of_lookup_2 in Hj. specialize (Hinv _ Hj). lia.
        -- apply list_lookup_singleton_Some in Hj as [_ <-]. lia.
      * intros j e Hlt Hj He. apply lookup_app_Some in Hj as [Hj | [Hge _]].
        -- apply list_elem_of_lookup_2 in Hj. specialize (Hinv _ Hj). lia.
        -- lia.
Qed.

Lemma encrypt_inv_loop now hint rest : forall pre best,
  encrypt_inv now pre best ->
  encrypt_inv now (pre ++ rest)
    (best_key_loop WA_KEY_ENCRYPT hint now (length pre) rest best).
Proof.
  induction rest as [| entry rest IH]; intros pre best Hinv; simpl.
  - by rewrite app_nil_r.
  - replace (pre ++ entry :: rest) with ((pre ++ [entry]) ++ rest)
      by (by rewrite <- app_assoc).
    replace (S (length pre)) with (length (pre ++ [entry]))
      by (rewrite length_app; simpl; lia).
    apply IH. by apply encrypt_inv_step.
Qed.

Lemma encrypt_inv_result ring hint now :
  encrypt_inv now ring (best_entry ring WA_KEY_ENCRYPT hint now).
Proof.
  apply (encrypt_inv_loop now hint ring [] None).
  intros e He. by apply elem_of_nil in He.
Qed.

(** C2 (amended): for every keyring, [webauth_keyring_best_key] with usage
    ENCRYPT looks only at the entries whose [valid_after] is at or before the
    current time, returns the key of the entry with the greatest
    [valid_after] among them, gives a tie to the entry inserted FIRST, and
    fails with NOT_FOUND (storing no key) when no entry qualifies. *)
Theorem best_key_encrypt_earliest_maximum (ring : webauth_keyring)
    (hint now : Z) :
  match webauth_keyring_best_key ring WA_KEY_ENCRYPT hint now with
  | (WA_ERR_NONE, Some k) => picks_earliest_maximum now ring k
  | (WA_ERR_NOT_FOUND, None) => forall e, e ∈ ring -> now < valid_after e
  | _ => False
  end.
Proof.
  unfold webauth_keyring_best_key.
  pose proof (encrypt_inv_result ring hint now) as Hinv.
  destruct (best_entry ring WA_KEY_ENCRYPT hint now) as [[b be] |].
  - destruct Hinv as (Hb & Hbe & Hmax & Hfirst).
    exists b, be. eauto 10.
  - exact Hinv.
Qed.

(** C2, as the spec words it, fails: of two entries with the same
    [valid_after] the first one is kept, so the key returned is not that of
    the entry inserted last. *)
Lemma best_key_encrypt_tie_keeps_first :
  webauth_keyring_best_key tied_ring WA_KEY_ENCRYPT 0 10
    = (WA_ERR_NONE, Some key_a)
  /\ ~ picks_latest_maximum 10 tied_ring key_a.
Proof.
  split; [reflexivity |].
  intros (i & e & Hi & Hk & _ & _ & Hlater).
  destruct i as [| [| i]]; simpl in Hi; try discriminate.
  - specialize (Hlater 1%nat _ ltac:(lia) eq_refl).
    inversion Hi; subst e. simpl in Hlater. lia.
  - inversion Hi; subst e. discriminate Hk.
Qed.

Ltac split_lookup H :=
  apply lookup_app_Some in H as [H | [? H]];
  [| apply list_lookup_singleton_Some in H as [? <-]].

Lemma decrypt_inv_step hint now pre best entry :
  decrypt_inv hint now pre best ->
  decrypt_inv hint now (pre ++ [entry])
    (best_key_step WA_KEY_DECRYPT hint now best (length pre) entry).
Proof.
  intros Hinv. unfold best_key_step.
  assert (Hkeep : valid_after entry > now \/ hint < valid_after entry
            \/ (exists b be, best = Some (b, be)
                             /\ valid_after entry < valid_after be) ->
          decrypt_inv hint now (pre ++ [entry]) best).
  { intros Hout. destruct best as [[b be] |]; simpl in *.
    - destruct Hinv as (Hb & Hnow & Hhint & Hmax & Hlast).
      assert (Hlt : valid_after entry <= now -> valid_after entry <= hint ->
                    valid_after entry < valid_after be).
      { intros ? ?. destruct Hout as [? | [? | (? & ? & [= <- <-] & ?)]];
          lia. }
      repeat split; [by apply lookup_app_l_Some | done | done | |].
      + intros j e Hj ? ?. split_lookup Hj; [eauto | lia].
      + intros j e ? Hj ? ?. split_lookup Hj; [eauto | lia].
    - intros e [He | He]%elem_of_app; [eauto |].
      apply list_elem_of_singleton in He as ->.
      destruct Hout as [? | [? | (? & ? & [=] & _)]]; lia. }
  destruct (Z.gtb_spec (valid_after entry) now) as [Hgt | Hle];
    [apply Hkeep; lia |].
  destruct (Z.geb_spec hint (valid_after entry)) as [Hh | Hh]; simpl;
    [| apply Hkeep; lia].
  destruct best as [[b be] |]; simpl in *.
  - destruct Hinv as (Hb & Hnow & Hhint & Hmax & Hlast).
    destruct (Z.geb_spec (valid_after entry) (valid_after be)) as [Hge | Hlt];
      [| apply Hkeep; right; right; exists b, be; split; [done | lia]].
    repeat split; [by rewrite lookup_app_r, Nat.sub_diag | lia | lia | |].
    + intros j e Hj ? ?. split_lookup Hj; [| lia].
      specialize (Hmax _ _ Hj). lia.
    + intros j e ? Hj ? ?. split_lookup Hj; [| lia].
      apply lookup_lt_Some in Hj. lia.
  - repeat split; [by rewrite lookup_app_r, Nat.sub_diag | lia | lia | |].
    + intros j e Hj ? ?. split_lookup Hj; [| lia].
      apply list_elem_of_lookup_2 in Hj. destruct (Hinv _ Hj); lia.
    + intros j e ? Hj ? ?. split_lookup Hj; [| lia].
      apply lookup_lt_Some in Hj. lia.
Qed.

Lemma decrypt_inv_loop hint now rest : forall pre best,
  decrypt_inv hint now pre best ->
  decrypt_inv hint now (pre ++ rest)
    (best_key_loop WA_KEY_DECRYPT hint now (length pre) rest best).
Proof.
  induction rest as [| entry rest IH]; intros pre best Hinv; simpl.
  - by rewrite app_nil_r.
  - replace (pre ++ entry :: rest) with ((pre ++ [entry]) ++ rest)
      by (by rewrite <- app_assoc).
    replace (S (length pre)) with (length (pre ++ [entry]))
      by (rewrite length_app; simpl; lia).
    apply IH. by apply decrypt_inv_step.
Qed.

(** X1: with usage DECRYPT, [webauth_keyring_best_key] returns the key of an
    entry whose [valid_after] exceeds neither the hint nor the current time,
    the greatest such, and of equal ones the entry inserted last. *)
Lemma best_key_decrypt_latest_before_hint (ring : webauth_keyring)
    (hint now : Z) :
  match webauth_keyring_best_key ring WA_KEY_DECRYPT hint now with
  | (WA_ERR_NONE, Some k) => picks_latest_before_hint hint now ring k
  | (WA_ERR_NOT_FOUND, None) =>
      forall e, e ∈ ring -> now < valid_after e \/ hint < valid_after e
  | _ => False
  end.
Proof.
  unfold webauth_keyring_best_key, best_entry.
  pose proof (decrypt_inv_loop hint now ring [] None) as Hinv.
  simpl in Hinv.
  destruct (best_key_loop WA_KEY_DECRYPT hint now 0 ring None) as [[b be] |].
  - destruct Hinv as (Hb & Hnow & Hhint & Hmax & Hlast).
    + intros e He. by apply elem_of_nil in He.
    + exists b, be. eauto 10.
  - apply Hinv. intros e He. by apply elem_of_nil in He.
Qed.

Lemma best_key_encrypt_found (ring : webauth_keyring) (hint now : Z) :
  Exists (fun e => valid_after e <= now) ring ->
  exists k,
    webauth_keyring_best_key ring WA_KEY_ENCRYPT hint now
      = (WA_ERR_NONE, Some k).
Proof.
  intros Hex. unfold webauth_keyring_best_key.
  pose proof (encrypt_inv_result ring hint now) as Hinv.
  destruct (best_entry ring WA_KEY_ENCRYPT hint now) as [[b be] |].
  - eauto.
  - exfalso. apply Exists_exists in Hex as (e & He & Hle).
    assert (now < valid_after e); [| lia].
    by apply Hinv.
Qed.

Lemma keyring_add_appends (ring : webauth_keyring) (c v : Z)
    (k : webauth_key) :
  webauth_keyring_add ring c v k
    = ring ++ [ {| creation := c; valid_after := v; key := k |} ].
Proof. unfold webauth_keyring_add, webauth_key_copy. by destruct k. Qed.

(** C3: the code at the input the claim is about.  [webauth_keyring_add]
    called with both times zero appends an entry whose two times are zero:
    the clock is not read, nothing is put in place of the zeros. *)
Theorem keyring_add_keeps_zero_timestamps (ring : webauth_keyring)
    (k : webauth_key) :
  webauth_keyring_add ring 0 0 k
    = ring ++ [ {| creation := 0; valid_after := 0; key := k |} ]
  /\ webauth_keyring_from_key k
       = [ {| creation := 0; valid_after := 0; key := k |} ].
Proof.
  unfold webauth_keyring_from_key, webauth_keyring_new.
  by rewrite !keyring_add_appends.
Qed.

(** ** Tokens: the checks *)

(** In a sequence of checks that ends well every check has ended well. *)
Ltac split_checks :=
  repeat match goal with
    | H : and_then ?c _ = WA_ERR_NONE |- _ =>
        let E := fresh "Hcheck" in
        destruct c eqn:E; simpl in H; try discriminate H
    end.

Ltac reuse_checks :=
  repeat match goal with
    | H : ?c = WA_ERR_NONE |- context [?c] => rewrite H
    end; simpl.

(** A check answers NONE, CORRUPT, INVALID or TOKEN_EXPIRED. *)
Lemma check_token_status now token mode :
  check_status (check_token now token mode).
Proof.
  assert (Hn : check_status WA_ERR_NONE) by (by left).
  assert (Hc : check_status WA_ERR_CORRUPT) by (right; by left).
  assert (Hthen : forall c1 c2, check_status c1 -> check_status c2 ->
                                check_status (and_then c1 c2)).
  { intros c1 c2 [-> | [-> | [-> | ->]]] H2; simpl; auto;
      unfold check_status; auto. }
  assert (Hif : forall (b : bool) c1 c2, check_status c1 -> check_status c2 ->
                                check_status (if b then c1 else c2)).
  { by intros []. }
  assert (Hstr : forall A (a : option A), check_status (CHECK_STR a)).
  { by intros A []. }
  assert (Hnull : forall A (a : option A), check_status (CHECK_NULL a)).
  { by intros A []. }
  assert (Hdata : forall a len, check_status (CHECK_DATA a len)).
  { intros a len. unfold CHECK_DATA. repeat case_match; auto. }
  assert (Hnum : forall a, check_status (CHECK_NUM a)).
  { intros a. unfold CHECK_NUM. case_match; auto. }
  assert (Hzero : forall a, check_status (CHECK_ZERO a)).
  { intros a. unfold CHECK_ZERO. case_match; auto. }
  assert (Hexp : forall e m, check_status (CHECK_EXP now e m)).
  { intros e m. unfold CHECK_EXP. apply Hthen; [auto |].
    destruct m; unfold check_expiration, check_status; try case_match; auto. }
  destruct token as [t | t | t | t | t | t | t | t | t | t | |]; simpl;
    try (unfold check_status; tauto);
    unfold check_app, check_cred, check_error, check_id, check_login,
      check_proxy, check_request, check_webkdc_factor, check_webkdc_proxy,
      check_webkdc_service, check_cred_type, check_proxy_type,
      check_subject_auth;
    repeat case_match; auto 20.
Qed.

Lemma check_exp_encode now e :
  CHECK_EXP now e ENCODE = CHECK_NUM e.
Proof. unfold CHECK_EXP. by destruct (CHECK_NUM e). Qed.

Lemma check_exp_decode now e :
  CHECK_NUM e = WA_ERR_NONE ->
  CHECK_EXP now e DECODE = check_expiration now e.
Proof. unfold CHECK_EXP. by intros ->. Qed.

(** On a record that passes the checks of ENCODE mode, DECODE mode adds the
    test of the expiration time and nothing else. *)
Lemma check_token_decode_of_encode now token :
  check_token now token ENCODE = WA_ERR_NONE ->
  check_token now token DECODE
    = match token_expiration token with
      | Some e => check_expiration now e
      | None => WA_ERR_NONE
      end.
Proof.
  destruct token as [t | t | t | t | t | t | t | t | t | t | |]; simpl;
    try discriminate; try done.
  - unfold check_app. rewrite check_exp_encode. intros Henc.
    split_checks. rewrite check_exp_decode by done.
    destruct (check_expiration now (app_expiration t)); simpl; try done.
  - unfold check_cred. rewrite check_exp_encode. intros Henc.
    split_checks. rewrite check_exp_decode by done. reuse_checks.
    by destruct (check_expiration now (cred_expiration t)).
  - unfold check_id. rewrite check_exp_encode. intros Henc.
    split_checks. rewrite check_exp_decode by done. reuse_checks.
    by destruct (check_expiration now (id_expiration t)).
  - unfold check_proxy. rewrite check_exp_encode. intros Henc.
    split_checks. rewrite check_exp_decode by done. reuse_checks.
    by destruct (check_expiration now (proxy_expiration t)).
  - unfold check_webkdc_factor. rewrite check_exp_encode. intros Henc.
    split_checks. rewrite check_exp_decode by done. reuse_checks.
    by destruct (check_expiration now (wkfactor_expiration t)).
  - unfold check_webkdc_proxy. rewrite check_exp_encode. intros Henc.
    split_checks. rewrite check_exp_decode by done. reuse_checks.
    by destruct (check_expiration now (wkproxy_expiration t)).
  - unfold check_webkdc_service. rewrite check_exp_encode. intros Henc.
    split_checks. rewrite check_exp_decode by done. reuse_checks.
    by destruct (check_expiration now (wkservice_expiration t)).
Qed.

Lemma check_token_encode_ignores_clock now now' token :
  check_token now token ENCODE = check_token now' token ENCODE.
Proof.
  destruct token as [t | t | t | t | t | t | t | t | t | t | |]; simpl;
    try done.
Qed.

Lemma and_then_expired c1 c2 :
  and_then c1 c2 = WA_ERR_TOKEN_EXPIRED ->
  c1 = WA_ERR_TOKEN_EXPIRED \/ (c1 = WA_ERR_NONE /\ c2 = WA_ERR_TOKEN_EXPIRED).
Proof. destruct c1; simpl; auto. Qed.

(** TOKEN_EXPIRED comes from [check_expiration] and from nowhere else: it is
    returned only in DECODE mode, for a kind that has an expiration, and only
    when that expiration lies strictly before the current time. *)
Lemma token_expired_only_on_decode now token mode :
  check_token now token mode = WA_ERR_TOKEN_EXPIRED ->
  mode = DECODE
  /\ exists e, token_expiration token = Some e /\ e < now.
Proof.
  assert (Hplain : forall s, plain_status s -> s = WA_ERR_TOKEN_EXPIRED ->
                             False).
  { intros s [-> | ->]; discriminate. }
  assert (Hn : plain_status WA_ERR_NONE) by (by left).
  assert (Hc : plain_status WA_ERR_CORRUPT) by (by right).
  assert (Hthen : forall c1 c2, plain_status c1 -> plain_status c2 ->
                                plain_status (and_then c1 c2)).
  { intros c1 c2 [-> | ->] [-> | ->]; unfold plain_status; simpl; auto. }
  assert (Hif : forall (b : bool) c1 c2, plain_status c1 -> plain_status c2 ->
                                plain_status (if b then c1 else c2)).
  { by intros []. }
  assert (Hstr : forall A (a : option A), plain_status (CHECK_STR a)).
  { by intros A []. }
  assert (Hnull : forall A (a : option A), plain_status (CHECK_NULL a)).
  { by intros A []. }
  assert (Hdata : forall a len, plain_status (CHECK_DATA a len)).
  { intros a len. unfold CHECK_DATA. repeat case_match; auto. }
  assert (Hnum : forall a, plain_status (CHECK_NUM a)).
  { intros a. unfold CHECK_NUM. case_match; auto. }
  assert (Hzero : forall a, plain_status (CHECK_ZERO a)).
  { intros a. unfold CHECK_ZERO. case_match; auto. }
  assert (Hexp : forall e m, CHECK_EXP now e m = WA_ERR_TOKEN_EXPIRED ->
                             m = DECODE /\ e < now).
  { intros e m. unfold CHECK_EXP, CHECK_NUM, check_expiration.
    destruct (e =? 0); simpl; [discriminate |].
    destruct m; [discriminate |].
    destruct (Z.ltb_spec e now); [done | discriminate]. }
  destruct token as [t | t | t | t | t | t | t | t | t | t | |]; simpl;
    try discriminate;
    unfold check_app, check_cred, check_error, check_id, check_login,
      check_proxy, check_request, check_webkdc_factor, check_webkdc_proxy,
      check_webkdc_service, check_cred_type, check_proxy_type,
      check_subject_auth;
    intros Hx;
    repeat match type of Hx with
      | and_then (CHECK_EXP _ _ _) _ = _ => fail 1
      | and_then _ _ = _ =>
          apply and_then_expired in Hx as [Hx | [_ Hx]];
          [exfalso; revert Hx; apply Hplain; solve [auto] |]
      end;
    try (apply and_then_expired in Hx as [Hx | [_ Hx]];
         [| exfalso; revert Hx; apply Hplain; repeat case_match;
            solve [auto 30]]);
    first [ apply Hexp in Hx as [-> ?]; solve [eauto]
          | exfalso; revert Hx; apply Hplain; repeat case_match;
            solve [auto 30] ].
Qed.

Lemma valid_token_type_string now t :
  check_token now t ENCODE = WA_ERR_NONE ->
  webauth_token_type_string (token_type t) <> None
  /\ token_type t <> WA_TOKEN_ANY.
Proof. destruct t; simpl; intros Hc; try discriminate; by vm_compute. Qed.

(** ** Tokens: encoding and decoding *)

Section TokenPipeline.
Context `{TokenDeps}.

(** A record refused by its check is refused by the encoder with the status
    of the check, whatever the keyring holds. *)
Lemma encode_raw_rejects now rand data ring :
  check_token now data ENCODE <> WA_ERR_NONE ->
  webauth_token_encode_raw now rand data (Some ring)
    = (check_token now data ENCODE, None).
Proof.
  intros Hbad. unfold webauth_token_encode_raw.
  by destruct (check_token now data ENCODE).
Qed.

(** Every token type other than [WA_TOKEN_ANY] has a name. *)
Lemma token_type_named type :
  bool_decide (webauth_token_type_string type = None)
  && bool_decide (type <> WA_TOKEN_ANY) = false.
Proof. by destruct type. Qed.

(** The decoder once the token is decrypted and parsed: a record of another
    kind than the expected one is CORRUPT, any other record gets the verdict
    of its check in DECODE mode. *)
Lemma decode_raw_checks now type input ring attrs out :
  webauth_token_decrypt now input ring = inr attrs ->
  wai_decode_token attrs = inr out ->
  webauth_token_decode_raw now type input ring
    = if bool_decide (type <> WA_TOKEN_ANY)
         && bool_decide (type <> token_type out)
      then (WA_ERR_CORRUPT, None)
      else match check_token now out DECODE with
           | WA_ERR_NONE => (WA_ERR_NONE, Some out)
           | s => (s, None)
           end.
Proof.
  intros Hopen Hdec. unfold webauth_token_decode_raw.
  by rewrite token_type_named, Hopen, Hdec.
Qed.

Lemma expected_type_accepted type out :
  type = WA_TOKEN_ANY \/ type = token_type out ->
  bool_decide (type <> WA_TOKEN_ANY) && bool_decide (type <> token_type out)
    = false.
Proof.
  intros [-> | ->].
  - by rewrite (bool_decide_eq_false_2 (WA_TOKEN_ANY <> WA_TOKEN_ANY))
      by (intros Hne; by apply Hne).
  - rewrite (bool_decide_eq_false_2 (token_type out <> token_type out))
      by (intros Hne; by apply Hne).
    apply andb_false_r.
Qed.

(** C9: a login token passes the check only if [username] is set and exactly
    one of [password] and [otp] is; with both set, with neither set, or with
    [otp_type] set next to [password], the check answers CORRUPT, in ENCODE
    and in DECODE mode alike: the encoder refuses such a record with CORRUPT
    and so does the decoder when a token decrypts and parses to it. *)
Theorem check_login_exactly_one (now : Z) (login : webauth_token_login)
    (mode : encode_mode) :
  let r := check_token now (TokenLogin login) mode in
  (r = WA_ERR_NONE ->
     login_username login <> None
     /\ (login_password login <> None <-> login_otp login = None))
  /\ (login_password login <> None -> login_otp login <> None ->
      r = WA_ERR_CORRUPT)
  /\ (login_password login = None -> login_otp login = None ->
      r = WA_ERR_CORRUPT)
  /\ (login_password login <> None -> login_otp_type login <> None ->
      r = WA_ERR_CORRUPT)
  /\ (r = WA_ERR_NONE \/ r = WA_ERR_CORRUPT)
  /\ (r <> WA_ERR_NONE -> forall rand ring,
      webauth_token_encode_raw now rand (TokenLogin login) (Some ring)
        = (WA_ERR_CORRUPT, None))
  /\ (r <> WA_ERR_NONE -> forall type input ring attrs,
      webauth_token_decrypt now input ring = inr attrs ->
      wai_decode_token attrs = inr (TokenLogin login) ->
      webauth_token_decode_raw now type input ring
        = (WA_ERR_CORRUPT, None)).
Proof.
  assert (Hmode : forall m, check_token now (TokenLogin login) m
                            = check_login login ENCODE) by (by intros []).
  assert (Hrange : check_login login ENCODE = WA_ERR_NONE
                   \/ check_login login ENCODE = WA_ERR_CORRUPT).
  { destruct login as [[u |] [p |] [o |] [ot |]]; cbn; auto. }
  cbv zeta. rewrite Hmode.
  split; [| split; [| split; [| split; [| split; [done | split]]]]].
  1-4: destruct login as [[u |] [p |] [o |] [ot |]]; cbn;
    intuition congruence.
  - intros Hbad rand ring.
    rewrite encode_raw_rejects; rewrite Hmode; [| done].
    destruct Hrange as [Hr | Hr]; rewrite Hr in *; done.
  - intros Hbad type input ring attrs Hopen Hdec.
    rewrite (decode_raw_checks _ _ _ _ _ _ Hopen Hdec), Hmode.
    destruct (_ && _); [done |].
    destruct Hrange as [Hr | Hr]; rewrite Hr in *; done.
Qed.

(** C6: TOKEN_EXPIRED is returned only in DECODE mode and only for an
    expiration strictly before the current time, so a record whose
    expiration equals the current time is never rejected as expired.  For
    every token record that is well formed for its kind and whose expiration
    lies strictly before the current time, the check of DECODE mode answers
    TOKEN_EXPIRED, and so does the decoder once a token decrypts and parses
    to that record, while the check of ENCODE mode accepts the record at that
    time and at any other, and the encoder goes on to seal it. *)
Theorem expiration_checked_on_decode_only (now : Z) (token : webauth_token) :
  (forall mode,
     check_token now token mode = WA_ERR_TOKEN_EXPIRED ->
     mode = DECODE /\ exists e, token_expiration token = Some e /\ e < now)
  /\ (forall e,
        token_expiration token = Some e ->
        check_token now token ENCODE = WA_ERR_NONE ->
        (forall now', check_token now' token ENCODE = WA_ERR_NONE)
        /\ (e < now -> check_token now token DECODE = WA_ERR_TOKEN_EXPIRED)
        /\ (now <= e -> check_token now token DECODE = WA_ERR_NONE)
        /\ (forall rand ring attrs sealed,
              wai_encode_token token = inr attrs ->
              webauth_token_encrypt now rand attrs ring = inr sealed ->
              webauth_token_encode_raw now rand token (Some ring)
                = (WA_ERR_NONE, Some sealed))
        /\ (e < now -> forall type input ring attrs,
              webauth_token_decrypt now input ring = inr attrs ->
              wai_decode_token attrs = inr token ->
              type = WA_TOKEN_ANY \/ type = token_type token ->
              webauth_token_decode_raw now type input ring
                = (WA_ERR_TOKEN_EXPIRED, None))).
Proof.
  split; [apply token_expired_only_on_decode |].
  intros e He Henc.
  assert (Hexpired : e < now ->
            check_token now token DECODE = WA_ERR_TOKEN_EXPIRED).
  { intros Hlt. rewrite check_token_decode_of_encode, He by done.
    unfold check_expiration. destruct (Z.ltb_spec e now); [done | lia]. }
  split; [| split; [done | split; [| split]]].
  - intros now'. by rewrite (check_token_encode_ignores_clock now' now).
  - intros Hle. rewrite check_token_decode_of_encode, He by done.
    unfold check_expiration. destruct (Z.ltb_spec e now); [lia | done].
  - intros rand ring attrs sealed Hattrs Hseal.
    unfold webauth_token_encode_raw. by rewrite Henc, Hattrs, Hseal.
  - intros Hlt type input ring attrs Hopen Hdec Htype.
    rewrite (decode_raw_checks _ _ _ _ _ _ Hopen Hdec).
    by rewrite expected_type_accepted, Hexpired.
Qed.

(** C4 (amended): encoding fails with BAD_KEY, and stores no token, for every
    record when the keyring is NULL.  With a keyring that has no entry the
    record is checked first: a record that fails the check of its kind gets
    the status of that check (never BAD_KEY), and a record that passes it and
    is serialized gets BAD_KEY from the encryption layer, which is assumed
    here to answer BAD_KEY on a keyring without entries.  In none of these
    cases is a token stored. *)
Theorem encode_raw_without_keys (now : Z) (rand : option bytes)
    (data : webauth_token) :
  (forall attrs,
     webauth_token_encrypt now rand attrs [] = inl WA_ERR_BAD_KEY) ->
  webauth_token_encode_raw now rand data None = (WA_ERR_BAD_KEY, None)
  /\ (check_token now data ENCODE = WA_ERR_NONE ->
      forall attrs, wai_encode_token data = inr attrs ->
      webauth_token_encode_raw now rand data (Some [])
        = (WA_ERR_BAD_KEY, None))
  /\ (check_token now data ENCODE <> WA_ERR_NONE ->
      webauth_token_encode_raw now rand data (Some [])
        = (check_token now data ENCODE, None)
      /\ check_token now data ENCODE <> WA_ERR_BAD_KEY)
  /\ (webauth_token_encode_raw now rand data (Some [])).2 = None.
Proof.
  intros Hcrypt. unfold webauth_token_encode_raw.
  split; [done |]. split; [| split].
  - intros -> attrs ->. by rewrite Hcrypt.
  - intros Hbad. split.
    + by destruct (check_token now data ENCODE).
    + destruct (check_token_status now data ENCODE)
        as [-> | [-> | [-> | ->]]]; discriminate.
  - destruct (check_token now data ENCODE); try done.
    destruct (wai_encode_token data) as [s | attrs]; [done |].
    by rewrite Hcrypt.
Qed.

(** C1: a record [t] that passes the check of its kind and has not expired
    when it is decoded, a keyring with an entry whose [valid_after] is at or
    before the time of encoding: provided the attribute codec, the
    encryption layer and base64 give back what they were given at this
    input, [webauth_token_encode] succeeds and [webauth_token_decode] of its
    result, with the kind of [t] and the same keyring, succeeds and stores a
    record equal to [t]. *)
Theorem token_encode_decode_round_trip (now now' : Z) (rand : option bytes)
    (t : webauth_token) (ring : webauth_keyring) (attrs : bytes) :
  check_token now t ENCODE = WA_ERR_NONE ->
  (forall e, token_expiration t = Some e -> now' <= e) ->
  Exists (fun entry => valid_after entry <= now) ring ->
  wai_encode_token t = inr attrs ->
  wai_decode_token attrs = inr t ->
  (forall k,
     webauth_keyring_best_key ring WA_KEY_ENCRYPT 0 now
       = (WA_ERR_NONE, Some k) ->
     exists sealed,
       webauth_token_encrypt now rand attrs ring = inr sealed
       /\ apr_base64_decode (apr_base64_encode sealed) = sealed
       /\ webauth_token_decrypt now' sealed (Some ring) = inr attrs) ->
  exists token,
    webauth_token_encode now rand t (Some ring) = (WA_ERR_NONE, Some token)
    /\ webauth_token_decode now' (token_type t) (Some token) (Some ring)
         = (WA_ERR_NONE, Some t).
Proof.
  intros Hvalid Hfresh Hkey Henc Hdec Hcrypt.
  destruct (best_key_encrypt_found ring 0 now Hkey) as [k Hk].
  destruct (Hcrypt k Hk) as (sealed & Hseal & Hb64 & Hopen).
  exists (apr_base64_encode sealed). split.
  - unfold webauth_token_encode, webauth_token_encode_raw.
    by rewrite Hvalid, Henc, Hseal.
  - unfold webauth_token_decode, webauth_token_decode_raw.
    destruct (valid_token_type_string now t Hvalid) as [Hname Hany].
    rewrite Hb64, Hopen, Hdec.
    rewrite (bool_decide_eq_false_2 _ Hname). simpl.
    rewrite (bool_decide_eq_false_2 (token_type t <> token_type t))
      by (intros Hne; by apply Hne).
    rewrite andb_false_r.
    rewrite check_token_decode_of_encode
      by (by rewrite (check_token_encode_ignores_clock now' now)).
    destruct (token_expiration t) as [e |] eqn:He; [| done].
    unfold check_expiration. specialize (Hfresh e eq_refl).
    destruct (Z.ltb_spec e now'); [lia | done].
Qed.

End TokenPipeline.

(** C4, as the spec words it, fails whatever the missing stages do: with a
    keyring that has no entry, a login record that carries both a password
    and a one-time password is refused with CORRUPT before any key is looked
    for. *)
Lemma encode_empty_keyring_checks_first :
  ~ exists D : TokenDeps, encode_needs_keys D.
Proof.
  intros [D HD].
  specialize (HD 0 None both_secrets (Some []) (or_intror eq_refl)).
  discriminate HD.
Qed.

(** The amended C4 on the id token of the examples, with the stand-in
    stages. *)
Lemma encode_raw_without_keys_example :
  @webauth_token_encode_raw TokenModel.deps 1000 None alice None
    = (WA_ERR_BAD_KEY, None)
  /\ (check_token 1000 alice ENCODE = WA_ERR_NONE ->
      forall attrs, TokenModel.encode_token alice = inr attrs ->
      @webauth_token_encode_raw TokenModel.deps 1000 None alice (Some [])
        = (WA_ERR_BAD_KEY, None))
  /\ (check_token 1000 alice ENCODE <> WA_ERR_NONE ->
      @webauth_token_encode_raw TokenModel.deps 1000 None alice (Some [])
        = (check_token 1000 alice ENCODE, None)
      /\ check_token 1000 alice ENCODE <> WA_ERR_BAD_KEY)
  /\ (@webauth_token_encode_raw TokenModel.deps 1000 None alice
        (Some [])).2 = None.
Proof.
  apply (@encode_raw_without_keys TokenModel.deps 1000 None alice).
  intros attrs. reflexivity.
Defined.

(** C6 on a token that expires at 4600: accepted on encode one second later,
    refused as expired on decode then, accepted on decode at 4600 sharp. *)
Lemma expiration_checked_on_decode_only_example :
  check_token 4601 alice ENCODE = WA_ERR_NONE
  /\ check_token 4601 alice DECODE = WA_ERR_TOKEN_EXPIRED
  /\ check_token 4600 alice DECODE = WA_ERR_NONE.
Proof.
  destruct (@expiration_checked_on_decode_only TokenModel.deps 4601 alice)
    as [_ Hlate].
  destruct (@expiration_checked_on_decode_only TokenModel.deps 4600 alice)
    as [_ Hedge].
  destruct (Hlate 4600 eq_refl eq_refl) as (Henc & Hdec & _).
  destruct (Hedge 4600 eq_refl eq_refl) as (_ & _ & Hok & _).
  split; [apply Henc |]. split; [apply Hdec; lia | apply Hok; lia].
Defined.

(** C1 on the id token of the examples: sealed at 1000 under a keyring whose
    key is valid from 1000, read back at 1001. *)
Lemma token_encode_decode_round_trip_example :
  exists token,
    @webauth_token_encode TokenModel.deps 1000 (Some (repeat x01 16)) alice
      (Some sample_ring) = (WA_ERR_NONE, Some token)
    /\ @webauth_token_decode TokenModel.deps 1001 (token_type alice)
         (Some token) (Some sample_ring) = (WA_ERR_NONE, Some alice).
Proof.
  apply (@token_encode_decode_round_trip TokenModel.deps 1000 1001
           (Some (repeat x01 16)) alice sample_ring alice_attrs).
  - reflexivity.
  - intros e [= <-]. lia.
  - apply Exists_cons_hd. simpl. lia.
  - reflexivity.
  - reflexivity.
  - intros k _. eexists. split; [reflexivity |]. split; reflexivity.
Defined.

(** ** Keyring files: decoding, writing, automatic update *)

Lemma time_t_of_small z : - 2 ^ 63 <= z < 2 ^ 63 -> time_t_of z = z.
Proof. intros Hz. unfold time_t_of. rewrite Z.mod_small; lia. Qed.

Section KeyringFiles.
Context `{KeyringDeps}.

Lemma decode_entries_status entries : forall ring s,
  decode_entries entries ring = inl s ->
  exists entry, entry ∈ entries /\ entry_key entry = inl s.
Proof.
  induction entries as [| entry rest IH]; intros ring s; simpl; [done |].
  destruct (entry_key entry) as [s' | k] eqn:Hk.
  - intros [= <-]. exists entry. split; [constructor | done].
  - intros (e & He & Hs)%IH. exists e. split; [by constructor | done].
Qed.

Lemma decode_entries_failure entries : forall ring entry s,
  entry ∈ entries -> entry_key entry = inl s ->
  exists s', decode_entries entries ring = inl s'.
Proof.
  induction entries as [| e rest IH]; intros ring entry s Hin Hs; simpl.
  - by apply elem_of_nil in Hin.
  - destruct (entry_key e) as [s' | k] eqn:Hk; [eauto |].
    apply elem_of_cons in Hin as [-> | Hin]; [congruence |].
    eapply IH; eauto.
Qed.

Lemma decode_entries_reports entries ring :
  decode_entries entries ring <> inl WA_ERR_NONE.
Proof.
  intros (e & _ & Hs)%decode_entries_status.
  by destruct (key_create_status _ _ _ _ Hs).
Qed.

(** The decoder stores a keyring exactly when it returns [WA_ERR_NONE]. *)
Lemma keyring_decode_output input :
  (webauth_keyring_decode input).1 = WA_ERR_NONE
  <-> is_Some (webauth_keyring_decode input).2.
Proof.
  unfold webauth_keyring_decode.
  destruct (webauth_decode input) as [s | data] eqn:Hdata; simpl.
  - split; [| by intros [? [=]]].
    intros ->. by destruct (decode_status input).
  - destruct (wk_version data =? KEYRING_VERSION); simpl.
    + destruct (decode_entries _ _) as [s | ring] eqn:Hring; simpl.
      * split; [| by intros [? [=]]]. intros ->.
        by destruct (decode_entries_reports _ _ Hring).
      * split; eauto.
    + split; [done | by intros [? [=]]].
Qed.

(** C7: when the input parses as a keyring attribute stream,
    [webauth_keyring_decode] fails with FILE_VERSION exactly when the version
    it read differs from 1 (no key constructor reporting FILE_VERSION of its
    own); whenever the decode fails, and so whenever the key of one of the
    entries cannot be created, [*output] is left NULL. *)
Theorem keyring_decode_version (input : bytes) (data : wai_keyring) :
  webauth_decode input = inr data ->
  Forall (fun entry => entry_key entry <> inl WA_ERR_FILE_VERSION)
    (wk_entry data) ->
  ((webauth_keyring_decode input).1 = WA_ERR_FILE_VERSION
     <-> wk_version data <> 1)
  /\ ((webauth_keyring_decode input).1 <> WA_ERR_NONE ->
      (webauth_keyring_decode input).2 = None)
  /\ (forall entry s,
        wk_version data = 1 ->
        entry ∈ take (Z.to_nat (wk_entry_count data)) (wk_entry data) ->
        entry_key entry = inl s ->
        (webauth_keyring_decode input).1 <> WA_ERR_NONE
        /\ (webauth_keyring_decode input).2 = None).
Proof.
  intros Hdata Hkeys.
  assert (Hnull : (webauth_keyring_decode input).1 <> WA_ERR_NONE ->
                  (webauth_keyring_decode input).2 = None).
  { intros Hs. destruct (webauth_keyring_decode input).2 eqn:Hout; [| done].
    destruct Hs. apply keyring_decode_output. by rewrite Hout. }
  split; [| split; [done |]].
  - unfold webauth_keyring_decode. rewrite Hdata. unfold KEYRING_VERSION.
    destruct (Z.eqb_spec (wk_version data) 1) as [Hv | Hv]; simpl; [| done].
    destruct (decode_entries _ _) as [s | ring] eqn:Hring; simpl; [| done].
    split; [| done]. intros ->.
    apply decode_entries_status in Hring as (e & He & Hs).
    apply elem_of_take in He as (i & He & _).
    apply list_elem_of_lookup_2 in He.
    rewrite Forall_forall in Hkeys. by destruct (Hkeys e He).
  - intros entry s Hv Hin Hs.
    assert ((webauth_keyring_decode input).1 <> WA_ERR_NONE); [| by auto].
    unfold webauth_keyring_decode. rewrite Hdata, Hv. simpl.
    destruct (decode_entries_failure _
                (webauth_keyring_new (wk_entry_count data)) _ _ Hin Hs)
      as [s' Hs'].
    rewrite Hs'. simpl. intros ->.
    by destruct (decode_entries_reports _ _ Hs').
Qed.

(** A write that succeeds has put the encoded keyring under [path] and left
    nothing else behind. *)
Lemma keyring_write_success env ring path fs fs' :
  webauth_keyring_write env ring path fs = (WA_ERR_NONE, fs') ->
  exists buf,
    webauth_keyring_encode ring = inr buf /\ fs' = <[path := buf]> fs.
Proof.
  unfold webauth_keyring_write.
  destruct (env_mktemp env); simpl; [| discriminate].
  case_bool_decide as Htemp; simpl; [| discriminate].
  destruct (webauth_keyring_encode ring) as [s | buf] eqn:Hbuf; simpl.
  - intros [= -> _]. by destruct (encode_status _ Hbuf).
  - destruct (env_write env); simpl; [| discriminate].
    destruct (env_close env); simpl; [| discriminate].
    destruct (env_rename env); simpl; [| discriminate].
    intros [= <-]. exists buf. split; [done |].
    rewrite insert_insert_eq, delete_insert_eq.
    by rewrite delete_id.
Qed.

(** A failure of the encoder or of [apr_file_write_full] goes through the
    clean-up: the file system is as it was before the call. *)
Lemma keyring_write_cleans_up (env : call_env) (ring : webauth_keyring)
    (path : string) (fs : filesystem) :
  env_mktemp env = true ->
  fs !! temp_name env path = None ->
  (exists s, webauth_keyring_encode ring = inl s) \/ env_write env = false ->
  (webauth_keyring_write env ring path fs).2 = fs.
Proof.
  intros Hmk Htemp Hfail. unfold webauth_keyring_write.
  rewrite Hmk, (bool_decide_eq_true_2 _ Htemp). simpl.
  destruct (webauth_keyring_encode ring) as [s | buf] eqn:Hbuf; simpl.
  - by rewrite delete_insert_eq, delete_id.
  - destruct Hfail as [[s [=]] | ->]. simpl.
    by rewrite insert_insert_eq, delete_insert_eq, delete_id.
Qed.

(** C5: the code where the claim fails.  The temporary file has been
    created and written; [apr_file_close] or [apr_file_rename] then fails.
    [webauth_keyring_write] returns FILE_WRITE and the temporary file, with
    the whole encoded keyring in it, is still there: the handle was reset
    after the close, and the clean-up at [done] only runs while it is set. *)
Theorem keyring_write_leaves_temporary (env : call_env)
    (ring : webauth_keyring) (path : string) (fs : filesystem) (buf : bytes) :
  env_mktemp env = true ->
  fs !! temp_name env path = None ->
  webauth_keyring_encode ring = inr buf ->
  env_write env = true ->
  env_close env && env_rename env = false ->
  webauth_keyring_write env ring path fs
    = (WA_ERR_FILE_WRITE, <[temp_name env path := buf]> fs).
Proof.
  intros Hmk Htemp Hbuf Hwr Hfail. unfold webauth_keyring_write.
  rewrite Hmk, Hbuf, Hwr, (bool_decide_eq_true_2 _ Htemp). simpl.
  rewrite insert_insert_eq.
  destruct (env_close env); simpl in *; [rewrite Hfail |]; done.
Qed.

(** The reader stores a keyring exactly when it returns [WA_ERR_NONE]. *)
Lemma keyring_read_output env path fs :
  (webauth_keyring_read env path fs).1 = WA_ERR_NONE
  <-> is_Some (webauth_keyring_read env path fs).2.
Proof.
  unfold webauth_keyring_read.
  destruct (wai_file_read env path fs) as [s | buf] eqn:Hread; simpl.
  - split; [| by intros [? [=]]]. intros ->.
    unfold wai_file_read in Hread. repeat case_match; discriminate.
  - apply keyring_decode_output.
Qed.

(** C10: when the keyring file can be read and decoded, a call of
    [webauth_keyring_auto_update] with a lifetime of zero reports NONE, hands
    back the keyring as read and leaves the file system as it was, whatever
    the age of the keys. *)
Theorem auto_update_zero_lifetime (env : call_env) (path : string)
    (create : bool) (fs : filesystem) :
  (webauth_keyring_read env path fs).1 = WA_ERR_NONE ->
  let r := webauth_keyring_auto_update env path create 0 fs in
  au_status r = WA_ERR_NONE
  /\ au_updated r = WA_KAU_NONE
  /\ au_update_status r = WA_ERR_NONE
  /\ au_ring r = (webauth_keyring_read env path fs).2
  /\ is_Some (au_ring r)
  /\ au_fs r = fs.
Proof.
  intros Hread. pose proof (proj1 (keyring_read_output env path fs) Hread)
    as [ring Hring].
  unfold webauth_keyring_auto_update.
  destruct (webauth_keyring_read env path fs) as [s r0]. simpl in *.
  subst s r0. simpl. eauto 10.
Qed.

Lemma still_fresh_new_entry lifetime now now' k :
  0 < lifetime < 2 ^ 63 ->
  - 2 ^ 63 <= now -> now + lifetime < 2 ^ 63 ->
  now' < now + lifetime ->
  still_fresh lifetime now'
    {| creation := now; valid_after := now; key := k |} = true.
Proof.
  intros Hl Hlo Hhi Hnext. unfold still_fresh. simpl.
  rewrite (time_t_of_small lifetime) by lia.
  rewrite time_t_of_small by lia. lia.
Qed.

Lemma not_fresh_is_old lifetime now entry :
  0 < lifetime < 2 ^ 63 ->
  - 2 ^ 63 <= valid_after entry -> valid_after entry + lifetime < 2 ^ 63 ->
  still_fresh lifetime now entry = false ->
  lifetime <= now - valid_after entry.
Proof.
  intros Hl Hlo Hhi. unfold still_fresh.
  rewrite (time_t_of_small lifetime) by lia.
  rewrite time_t_of_small by lia. lia.
Qed.

(** C8 (amended): for every positive lifetime that [time_t] can hold together
    with the current time (lifetime below 2^63, now + lifetime below 2^63):
    if a call of [webauth_keyring_auto_update] on a readable keyring rotates
    (outcome UPDATE, write status NONE), it has appended one key whose two
    times are the current time, and a following call on the resulting file,
    made before now + lifetime, reports NONE and leaves the file system as
    the first call left it, provided the file written decodes to the keyring
    that was encoded.  The first call rotates only if now minus
    [valid_after] is at least the lifetime for every entry (entries within
    the range of [time_t]). *)
Theorem auto_update_rotates_once (env1 env2 : call_env) (path : string)
    (create : bool) (lifetime : Z) (fs : filesystem)
    (ring0 : webauth_keyring) (r1 : auto_update_result) :
  0 < lifetime < 2 ^ 63 ->
  - 2 ^ 63 <= env_now env1 ->
  env_now env1 + lifetime < 2 ^ 63 ->
  webauth_keyring_read env1 path fs = (WA_ERR_NONE, Some ring0) ->
  webauth_keyring_auto_update env1 path create lifetime fs = r1 ->
  au_updated r1 = WA_KAU_UPDATE ->
  au_update_status r1 = WA_ERR_NONE ->
  (forall ring buf,
     au_ring r1 = Some ring -> webauth_keyring_encode ring = inr buf ->
     webauth_keyring_decode buf = (WA_ERR_NONE, Some ring)) ->
  env_now env2 < env_now env1 + lifetime ->
  let r2 := webauth_keyring_auto_update env2 path create lifetime (au_fs r1) in
  au_updated r2 = WA_KAU_NONE
  /\ au_update_status r2 = WA_ERR_NONE
  /\ au_fs r2 = au_fs r1
  /\ (exists k,
        au_ring r1
          = Some (ring0 ++ [ {| creation := env_now env1;
                                valid_after := env_now env1; key := k |} ]))
  /\ (Forall (fun e => - 2 ^ 63 <= valid_after e
                       /\ valid_after e + lifetime < 2 ^ 63) ring0 ->
      Forall (fun e => lifetime <= env_now env1 - valid_after e) ring0).
Proof.
  intros Hl Hlo Hhi Hread Hr1 Hup Hst Hback Hnext.
  unfold webauth_keyring_auto_update in Hr1. rewrite Hread in Hr1.
  simpl in Hr1. destruct (Z.gtb_spec lifetime 0) as [_ | ?]; [| lia].
  unfold check_ring in Hr1.
  destruct (existsb (still_fresh lifetime (env_now env1)) ring0) eqn:Hfresh;
    [subst r1; discriminate |].
  destruct (webauth_key_create (env_rand env1) WA_KEY_AES WA_AES_128 None)
    as [s | k] eqn:Hk.
  { subst r1. simpl in Hst. subst s.
    by destruct (key_create_status _ _ _ _ Hk). }
  destruct (webauth_keyring_write env1 _ path fs) as [s fs1] eqn:Hwrite.
  subst r1. simpl in *. subst s.
  apply keyring_write_success in Hwrite as (buf & Hbuf & ->).
  specialize (Hback _ _ eq_refl Hbuf).
  rewrite keyring_add_appends in *.
  split; [| split; [| split; [| split]]].
  4: by eexists.
  4: { intros Hrange. apply Forall_forall. intros e He.
       rewrite Forall_forall in Hrange. destruct (Hrange e He).
       apply (not_fresh_is_old lifetime); [done .. |].
       apply not_true_is_false. intros Hf.
       apply not_true_iff_false in Hfresh. apply Hfresh.
       apply existsb_exists. exists e.
       split; [by apply list_elem_of_In | done]. }
  all: unfold webauth_keyring_auto_update, webauth_keyring_read, wai_file_read;
    rewrite lookup_insert_eq; destruct (env_read env2); simpl;
    try (destruct create; done);
    rewrite Hback; simpl;
    destruct (Z.gtb_spec lifetime 0) as [_ | ?]; try lia;
    unfold check_ring; rewrite existsb_app; simpl;
    rewrite still_fresh_new_entry by done;
    rewrite ?orb_true_l, ?orb_true_r; done.
Qed.

End KeyringFiles.

(** *** The file theorems on concrete inputs *)

(** C7 on a keyring file whose version attribute says 2. *)
Lemma keyring_decode_version_example :
  ((@webauth_keyring_decode KeyringModel.deps sample_file_v2).1
     = WA_ERR_FILE_VERSION <-> wk_version sample_data_v2 <> 1)
  /\ ((@webauth_keyring_decode KeyringModel.deps sample_file_v2).1
        <> WA_ERR_NONE ->
      (@webauth_keyring_decode KeyringModel.deps sample_file_v2).2 = None)
  /\ (forall entry s,
        wk_version sample_data_v2 = 1 ->
        entry ∈ take (Z.to_nat (wk_entry_count sample_data_v2))
                  (wk_entry sample_data_v2) ->
        @entry_key KeyringModel.deps entry = inl s ->
        (@webauth_keyring_decode KeyringModel.deps sample_file_v2).1
          <> WA_ERR_NONE
        /\ (@webauth_keyring_decode KeyringModel.deps sample_file_v2).2
             = None).
Proof.
  apply (@keyring_decode_version KeyringModel.deps sample_file_v2
           sample_data_v2).
  - reflexivity.
  - repeat constructor. discriminate.
Defined.

(** C5 on a one-key keyring when the rename fails: the file
    [keyring.a1B2c3] stays behind. *)
Lemma keyring_write_leaves_temporary_example :
  @webauth_keyring_write KeyringModel.deps (rename_fails_env 2000)
    sample_ring "keyring" sample_fs
  = (WA_ERR_FILE_WRITE,
     <[temp_name (rename_fails_env 2000) "keyring" := sample_file]>
       sample_fs).
Proof.
  apply (@keyring_write_leaves_temporary KeyringModel.deps
           (rename_fails_env 2000) sample_ring "keyring" sample_fs
           sample_file); reflexivity.
Defined.

(** C10 on a keyring whose only key is about three weeks old. *)
Lemma auto_update_zero_lifetime_example :
  let r := @webauth_keyring_auto_update KeyringModel.deps (sample_env 2000000)
             "keyring" false 0 sample_fs in
  au_status r = WA_ERR_NONE
  /\ au_updated r = WA_KAU_NONE
  /\ au_update_status r = WA_ERR_NONE
  /\ au_ring r
       = (@webauth_keyring_read KeyringModel.deps (sample_env 2000000)
            "keyring" sample_fs).2
  /\ is_Some (au_ring r)
  /\ au_fs r = sample_fs.
Proof.
  apply (@auto_update_zero_lifetime KeyringModel.deps (sample_env 2000000)
           "keyring" false sample_fs).
  reflexivity.
Defined.

(** The amended C8 with a lifetime of 500 seconds: a call at 2000 rotates
    the keyring of the examples, a call at 2001 leaves it alone. *)
Lemma auto_update_rotates_once_example :
  let r1 := @webauth_keyring_auto_update KeyringModel.deps (sample_env 2000)
              "keyring" false 500 sample_fs in
  let r2 := @webauth_keyring_auto_update KeyringModel.deps (sample_env 2001)
              "keyring" false 500 (au_fs r1) in
  au_updated r2 = WA_KAU_NONE
  /\ au_update_status r2 = WA_ERR_NONE
  /\ au_fs r2 = au_fs r1
  /\ (exists k,
        au_ring r1
          = Some (sample_ring ++ [ {| creation := 2000; valid_after := 2000;
                                      key := k |} ]))
  /\ (Forall (fun e => - 2 ^ 63 <= valid_after e
                       /\ valid_after e + 500 < 2 ^ 63) sample_ring ->
      Forall (fun e => 500 <= 2000 - valid_after e) sample_ring).
Proof.
  apply (@auto_update_rotates_once KeyringModel.deps (sample_env 2000)
           (sample_env 2001) "keyring" false 500 sample_fs sample_ring
           (@webauth_keyring_auto_update KeyringModel.deps (sample_env 2000)
              "keyring" false 500 sample_fs)).
  - lia.
  - simpl. lia.
  - simpl. lia.
  - reflexivity.
  - reflexivity.
  - reflexivity.
  - reflexivity.
  - intros ring buf Hring Hbuf.
    vm_compute in Hring. injection Hring as <-.
    vm_compute in Hbuf. injection Hbuf as <-.
    reflexivity.
  - simpl. lia.
Defined.

(** C8, as the spec words it, fails for a lifetime that [time_t] cannot hold:
    converted to [time_t], 2^63 is negative, no key is ever recent enough,
    and each of two calls in the same second appends a key and rewrites the
    file. *)
Lemma huge_lifetime_rotates_twice :
  ~ rotation_is_idempotent KeyringModel.deps.
Proof.
  intros Hclaim.
  destruct (Hclaim (sample_env 2000) (sample_env 2000) "keyring"%string
              false (2 ^ 63) sample_fs) as [Hnone _];
    [lia | by vm_compute .. |].
  vm_compute in Hnone. discriminate Hnone.
Qed.

(** ** Keyrings: removal, and the choice of key after an insertion *)

Lemma shift_down_length steps : forall entries i,
  length (shift_down entries i steps) = length entries.
Proof.
  induction steps as [| steps IH]; intros entries i; simpl; [done |].
  destruct (entries !! i); [| done]. by rewrite IH, length_insert.
Qed.

Lemma shift_down_lookup steps : forall (entries : webauth_keyring) (i j : nat),
  (1 <= i)%nat ->
  shift_down entries i steps !! j
    = if decide (Nat.pred i <= j < Nat.pred i + steps
                 /\ S j < length entries)%nat
      then entries !! S j else entries !! j.
Proof.
  induction steps as [| steps IH]; intros entries i j Hi; simpl.
  - case_decide; [lia | done].
  - destruct (entries !! i) as [entry |] eqn:Hentry.
    + rewrite IH by lia. rewrite length_insert. simpl.
      apply lookup_lt_Some in Hentry as Hlt.
      repeat case_decide; try lia.
      * by rewrite list_lookup_insert_ne by lia.
      * assert (j = Nat.pred i) as -> by lia.
        rewrite list_lookup_insert_eq by lia.
        by replace (S (Nat.pred i)) with i by lia.
      * by rewrite list_lookup_insert_ne by lia.
    + apply lookup_ge_None in Hentry.
      case_decide; [lia | done].
Qed.

(** X2: [webauth_keyring_remove] with an index inside the keyring returns
    NONE and leaves the keyring without that one entry, the others in their
    order (the copy loop and [apr_array_pop] together delete position [n]);
    with an index at or past the end it returns NOT_FOUND and leaves the
    keyring as it was. *)
Theorem keyring_remove_deletes (ring : webauth_keyring) (n : nat) :
  webauth_keyring_remove ring n
    = if decide (n < length ring)%nat
      then (WA_ERR_NONE, delete n ring)
      else (WA_ERR_NOT_FOUND, ring).
Proof.
  unfold webauth_keyring_remove.
  destruct (Nat.leb_spec (length ring) n) as [Hge | Hlt];
    case_decide; try lia; [done |].
  f_equal. unfold apr_array_pop. rewrite shift_down_length.
  apply list_eq. intros j.
  destruct (decide (j < length ring - 1)%nat) as [Hj | Hj].
  - rewrite lookup_take_lt by lia.
    rewrite shift_down_lookup by lia. simpl.
    destruct (decide (j < n)%nat).
    + rewrite list_lookup_delete_lt by lia. case_decide; [lia | done].
    + rewrite list_lookup_delete_ge by lia. case_decide; [done | lia].
  - rewrite lookup_take_ge by lia.
    symmetry. apply lookup_ge_None. rewrite length_delete; [lia |].
    apply lookup_lt_is_Some. lia.
Qed.

Lemma best_key_loop_app usage hint now l2 : forall l1 i best,
  best_key_loop usage hint now i (l1 ++ l2) best
    = best_key_loop usage hint now (i + length l1) l2
        (best_key_loop usage hint now i l1 best).
Proof.
  induction l1 as [| e l1 IH]; intros i best; simpl.
  - by rewrite Nat.add_0_r.
  - rewrite IH. f_equal. lia.
Qed.

Lemma best_entry_add ring usage hint now c v k :
  best_entry (webauth_keyring_add ring c v k) usage hint now
    = best_key_step usage hint now (best_entry ring usage hint now)
        (length ring) {| creation := c; valid_after := v; key := k |}.
Proof.
  rewrite keyring_add_appends. unfold best_entry.
  by rewrite best_key_loop_app.
Qed.

(** X3: the encryption key after [webauth_keyring_add].  A key added with
    a [valid_after] in the future changes nothing.  A key added with a
    [valid_after] that has come becomes the encryption key when it is
    strictly newer than every entry already valid; when an entry already
    valid is as new or newer, the choice stays what it was (a tie goes to
    the older entry). *)
Theorem added_key_encrypts (ring : webauth_keyring) (c v : Z)
    (k : webauth_key) (hint now : Z) :
  (now < v ->
   webauth_keyring_best_key (webauth_keyring_add ring c v k)
     WA_KEY_ENCRYPT hint now
   = webauth_keyring_best_key ring WA_KEY_ENCRYPT hint now)
  /\ (v <= now ->
      Forall (fun e => valid_after e <= now -> valid_after e < v) ring ->
      webauth_keyring_best_key (webauth_keyring_add ring c v k)
        WA_KEY_ENCRYPT hint now
      = (WA_ERR_NONE, Some k))
  /\ (v <= now ->
      Exists (fun e => valid_after e <= now /\ v <= valid_after e) ring ->
      webauth_keyring_best_key (webauth_keyring_add ring c v k)
        WA_KEY_ENCRYPT hint now
      = webauth_keyring_best_key ring WA_KEY_ENCRYPT hint now).
Proof.
  unfold webauth_keyring_best_key. rewrite best_entry_add.
  pose proof (encrypt_inv_result ring hint now) as Hinv.
  unfold best_key_step. simpl.
  split; [| split].
  - intros Hlt. destruct (Z.gtb_spec v now); [done | lia].
  - intros Hle Hold. destruct (Z.gtb_spec v now); [lia |].
    destruct (best_entry ring WA_KEY_ENCRYPT hint now) as [[b be] |];
      [| done].
    destruct Hinv as (Hb & Hbe & _).
    rewrite Forall_forall in Hold.
    apply list_elem_of_lookup_2 in Hb.
    specialize (Hold _ Hb Hbe).
    destruct (Z.gtb_spec v (valid_after be)); [done | lia].
  - intros Hle Hex. destruct (Z.gtb_spec v now); [lia |].
    apply Exists_exists in Hex as (e & He & Hnow & Hv).
    destruct (best_entry ring WA_KEY_ENCRYPT hint now) as [[b be] |].
    + destruct Hinv as (Hb & Hbe & Hmax & _).
      apply list_elem_of_lookup_1 in He as [j Hj].
      specialize (Hmax _ _ Hj Hnow).
      destruct (Z.gtb_spec v (valid_after be)); [lia | done].
    + specialize (Hinv _ He). lia.
Qed.


(** X5: the one-key keyring of [webauth_keyring_from_key] carries the
    timestamps zero, so its key is the encryption key at every time from the
    epoch on, and the decryption key for every hint from the epoch on; at a
    negative time, or for a negative hint, the answer is NOT_FOUND. *)
Theorem keyring_from_key_usable (k : webauth_key) (hint now : Z) :
  webauth_keyring_best_key (webauth_keyring_from_key k) WA_KEY_ENCRYPT
    hint now
  = (if decide (0 <= now) then (WA_ERR_NONE, Some k)
     else (WA_ERR_NOT_FOUND, None))
  /\ webauth_keyring_best_key (webauth_keyring_from_key k) WA_KEY_DECRYPT
       hint now
     = (if decide (0 <= now /\ 0 <= hint) then (WA_ERR_NONE, Some k)
        else (WA_ERR_NOT_FOUND, None)).
Proof.
  unfold webauth_keyring_from_key, webauth_keyring_new.
  rewrite keyring_add_appends. unfold webauth_keyring_best_key, best_entry.
  simpl. unfold best_key_step. simpl.
  destruct (Z.gtb_spec 0 now); destruct (Z.geb_spec hint 0);
    repeat case_decide; simpl; try lia; done.
Qed.


(** ** Tokens: type names, and the checks as conditions on the fields *)

Lemma type_code_loop_found type : forall names i j,
  type_code_loop type names i = Some j ->
  (i <= j)%nat /\ names !! (j - i)%nat = Some type.
Proof.
  induction names as [| name rest IH]; intros i j; simpl; [done |].
  destruct (String.eqb_spec type name) as [-> | Hne].
  - intros [= <-]. rewrite Nat.sub_diag. split; [lia | done].
  - intros (Hle & Hj)%IH. split; [lia |].
    by replace (j - i)%nat with (S (j - S i)) by lia.
Qed.

(** X13: [webauth_token_type_string] and [webauth_token_type_code] are
    inverse on the table [token_name]: every type but [WA_TOKEN_ANY] has a
    name whose code is the type, [WA_TOKEN_ANY] has none, every name of the
    table maps to a type that maps back to it, and every other string maps
    to [WA_TOKEN_UNKNOWN]. *)
Theorem token_type_code_string_round_trip :
  (forall type : webauth_token_type,
     type <> WA_TOKEN_ANY ->
     exists name, webauth_token_type_string type = Some name
                  /\ webauth_token_type_code name = type)
  /\ webauth_token_type_string WA_TOKEN_ANY = None
  /\ (forall name : string,
        name ∈ token_name ->
        webauth_token_type_string (webauth_token_type_code name) = Some name)
  /\ (forall name : string,
        name ∉ token_name ->
        webauth_token_type_code name = WA_TOKEN_UNKNOWN).
Proof.
  split; [| split; [done | split]].
  - intros type Hany. destruct type; try done; eexists; split; reflexivity.
  - intros name Hin. unfold token_name in Hin.
    repeat (apply elem_of_cons in Hin as [-> | Hin]; [reflexivity |]).
    by apply elem_of_nil in Hin.
  - intros name Hout. unfold webauth_token_type_code.
    destruct (type_code_loop name token_name 0) as [j |] eqn:Hj; [| done].
    apply type_code_loop_found in Hj as (_ & Hj).
    apply list_elem_of_lookup_2 in Hj. done.
Qed.

(** ** The checks as conditions on the fields *)

Lemma and_then_ok c1 c2 :
  and_then c1 c2 = WA_ERR_NONE <-> c1 = WA_ERR_NONE /\ c2 = WA_ERR_NONE.
Proof. destruct c1; simpl; intuition congruence. Qed.

Lemma and_then_late c1 c2 :
  and_then c1 c2 = WA_ERR_TOKEN_EXPIRED
  <-> c1 = WA_ERR_TOKEN_EXPIRED
      \/ (c1 = WA_ERR_NONE /\ c2 = WA_ERR_TOKEN_EXPIRED).
Proof. destruct c1; simpl; intuition congruence. Qed.

Lemma check_str_ok {A} (a : option A) :
  CHECK_STR a = WA_ERR_NONE <-> a <> None.
Proof. destruct a; simpl; intuition congruence. Qed.

Lemma check_null_ok {A} (a : option A) :
  CHECK_NULL a = WA_ERR_NONE <-> a = None.
Proof. destruct a; simpl; intuition congruence. Qed.

Lemma check_data_ok a len :
  CHECK_DATA a len = WA_ERR_NONE <-> a <> None /\ len <> 0.
Proof.
  unfold CHECK_DATA. destruct a; [| intuition congruence].
  destruct (Z.eqb_spec len 0); intuition congruence.
Qed.

Lemma check_num_ok a : CHECK_NUM a = WA_ERR_NONE <-> a <> 0.
Proof. unfold CHECK_NUM. destruct (Z.eqb_spec a 0); intuition congruence. Qed.

Lemma check_zero_ok a : CHECK_ZERO a = WA_ERR_NONE <-> a = 0.
Proof. unfold CHECK_ZERO. destruct (Z.eqb_spec a 0); intuition congruence. Qed.

Lemma check_exp_ok now e mode :
  CHECK_EXP now e mode = WA_ERR_NONE
  <-> e <> 0 /\ (mode = DECODE -> now <= e).
Proof.
  unfold CHECK_EXP, CHECK_NUM, check_expiration.
  destruct (Z.eqb_spec e 0); simpl; [intuition congruence |].
  destruct mode; [intuition congruence |].
  destruct (Z.ltb_spec e now); intuition (congruence || lia).
Qed.

Lemma check_exp_late now e mode :
  CHECK_EXP now e mode = WA_ERR_TOKEN_EXPIRED
  <-> mode = DECODE /\ e <> 0 /\ e < now.
Proof.
  unfold CHECK_EXP, CHECK_NUM, check_expiration.
  destruct (Z.eqb_spec e 0); simpl; [intuition congruence |].
  destruct mode; [intuition congruence |].
  destruct (Z.ltb_spec e now); intuition (congruence || lia).
Qed.

Lemma str_is_eq p lit : str_is p lit = true <-> p = Some lit.
Proof.
  destruct p as [s |]; simpl; [| intuition congruence].
  rewrite String.eqb_eq. intuition congruence.
Qed.

Lemma check_type_ok (b : bool) :
  (if negb b then WA_ERR_CORRUPT else WA_ERR_NONE) = WA_ERR_NONE
  <-> b = true.
Proof. destruct b; simpl; intuition congruence. Qed.

Lemma check_str_late {A} (a : option A) :
  CHECK_STR a = WA_ERR_TOKEN_EXPIRED <-> False.
Proof. destruct a; simpl; intuition congruence. Qed.

Lemma check_data_late a len :
  CHECK_DATA a len = WA_ERR_TOKEN_EXPIRED <-> False.
Proof. unfold CHECK_DATA. repeat case_match; intuition congruence. Qed.

(** X16: the checks of cred and proxy tokens as conditions on the fields.
    Accepted: subject set, type krb5, the data (and, for cred, the service)
    set with a nonzero length, a nonzero expiration, and on decode an
    expiration not before the current time.  TOKEN_EXPIRED: on decode only,
    when the fields checked before the expiration are set and the expiration
    is nonzero and past; the type is not looked at before. *)
Theorem check_cred_proxy_valid (now : Z) (mode : encode_mode) :
  (forall cred : webauth_token_cred,
     let r := check_token now (TokenCred cred) mode in
     (r = WA_ERR_NONE
        <-> cred_subject cred <> None /\ cred_type cred = Some "krb5"%string
            /\ cred_service cred <> None
            /\ cred_data cred <> None /\ cred_data_len cred <> 0
            /\ cred_expiration cred <> 0
            /\ (mode = DECODE -> now <= cred_expiration cred))
     /\ (r = WA_ERR_TOKEN_EXPIRED
           <-> mode = DECODE
               /\ cred_subject cred <> None /\ cred_type cred <> None
               /\ cred_service cred <> None
               /\ cred_data cred <> None /\ cred_data_len cred <> 0
               /\ cred_expiration cred <> 0 /\ cred_expiration cred < now))
  /\ (forall proxy : webauth_token_proxy,
        let r := check_token now (TokenProxy proxy) mode in
        (r = WA_ERR_NONE
           <-> proxy_subject proxy <> None
               /\ proxy_type proxy = Some "krb5"%string
               /\ proxy_webkdc_proxy proxy <> None
               /\ proxy_webkdc_proxy_len proxy <> 0
               /\ proxy_expiration proxy <> 0
               /\ (mode = DECODE -> now <= proxy_expiration proxy))
        /\ (r = WA_ERR_TOKEN_EXPIRED
              <-> mode = DECODE
                  /\ proxy_subject proxy <> None /\ proxy_type proxy <> None
                  /\ proxy_webkdc_proxy proxy <> None
                  /\ proxy_webkdc_proxy_len proxy <> 0
                  /\ proxy_expiration proxy <> 0
                  /\ proxy_expiration proxy < now)).
Proof.
  split.
  - intros cred. cbv zeta. simpl. unfold check_cred, check_cred_type. split.
    + rewrite !and_then_ok, !check_str_ok, check_data_ok, check_exp_ok,
        check_type_ok, str_is_eq.
      intuition congruence.
    + rewrite !and_then_late, !check_str_late, check_data_late,
        !check_str_ok, check_data_ok, check_exp_late.
      destruct (str_is (cred_type cred) "krb5"); simpl;
        intuition congruence.
  - intros proxy. cbv zeta. simpl. unfold check_proxy, check_proxy_type.
    split.
    + rewrite !and_then_ok, !check_str_ok, check_data_ok, check_exp_ok,
        check_type_ok, str_is_eq.
      intuition congruence.
    + rewrite !and_then_late, !check_str_late, check_data_late,
        !check_str_ok, check_data_ok, check_exp_late.
      destruct (str_is (proxy_type proxy) "krb5"); simpl;
        intuition congruence.
Qed.

(** X15: the check of an app token as a condition on the fields: a nonzero
    expiration (not past, on decode) and either no session key and a subject,
    or a session key and none of subject, authorization subject, last-used
    time, factors and level of assurance.  TOKEN_EXPIRED is the answer on
    decode for every record with a nonzero expiration in the past, whatever
    the other fields hold: the expiration is checked first. *)
Theorem check_app_valid (now : Z) (mode : encode_mode)
    (app : webauth_token_app) :
  let r := check_token now (TokenApp app) mode in
  (r = WA_ERR_NONE
     <-> app_expiration app <> 0
         /\ (mode = DECODE -> now <= app_expiration app)
         /\ ((app_session_key app = None /\ app_subject app <> None)
             \/ (app_session_key app <> None
                 /\ app_subject app = None /\ app_authz_subject app = None
                 /\ app_last_used app = 0
                 /\ app_initial_factors app = None
                 /\ app_session_factors app = None
                 /\ app_loa app = 0)))
  /\ (r = WA_ERR_TOKEN_EXPIRED
        <-> mode = DECODE /\ app_expiration app <> 0
            /\ app_expiration app < now).
Proof.
  cbv zeta. simpl. unfold check_app. split.
  - rewrite and_then_ok, check_exp_ok.
    destruct (app_session_key app).
    + rewrite !and_then_ok, !check_null_ok, !check_zero_ok.
      intuition congruence.
    + rewrite check_str_ok. intuition congruence.
  - rewrite and_then_late, check_exp_late.
    destruct (app_session_key app).
    + destruct (app_subject app), (app_authz_subject app),
        (Z.eqb_spec (app_last_used app) 0), (app_initial_factors app),
        (app_session_factors app), (Z.eqb_spec (app_loa app) 0);
        unfold CHECK_ZERO; simpl;
        repeat match goal with
          | H : ?a = 0 |- context [?a =? 0] => rewrite H; simpl
          | H : ?a <> 0 |- context [?a =? 0] =>
              rewrite (proj2 (Z.eqb_neq a 0) H); simpl
          end;
        intuition congruence.
    + rewrite check_str_late. intuition congruence.
Qed.

(** X17: the check of an id token as a condition on the fields: the
    authenticator is krb5 with authenticator data of nonzero length, or
    webkdc with a subject; the expiration is nonzero and, on decode, not
    past.  TOKEN_EXPIRED is the answer on decode as soon as the
    authenticator is set and the expiration is nonzero and past. *)
Theorem check_id_valid (now : Z) (mode : encode_mode)
    (id : webauth_token_id) :
  let r := check_token now (TokenId id) mode in
  (r = WA_ERR_NONE
     <-> ((id_auth id = Some "krb5"%string
           /\ id_auth_data id <> None /\ id_auth_data_len id <> 0)
          \/ (id_auth id = Some "webkdc"%string /\ id_subject id <> None))
         /\ id_expiration id <> 0
         /\ (mode = DECODE -> now <= id_expiration id))
  /\ (r = WA_ERR_TOKEN_EXPIRED
        <-> mode = DECODE /\ id_auth id <> None
            /\ id_expiration id <> 0 /\ id_expiration id < now).
Proof.
  cbv zeta. simpl. unfold check_id, check_subject_auth.
  pose proof (str_is_eq (id_auth id) "krb5") as Hk.
  pose proof (str_is_eq (id_auth id) "webkdc") as Hw.
  split.
  - rewrite !and_then_ok, check_str_ok, check_exp_ok.
    destruct (str_is (id_auth id) "krb5") eqn:Ek,
      (str_is (id_auth id) "webkdc") eqn:Ew; simpl;
      rewrite ?check_str_ok, ?check_data_ok;
      try (assert (id_auth id = Some "krb5"%string) as Hak by (by apply Hk));
      try (assert (id_auth id = Some "webkdc"%string) as Haw by (by apply Hw));
      try (assert (id_auth id <> Some "krb5"%string)
             by (intros ?%Hk; congruence));
      try (assert (id_auth id <> Some "webkdc"%string)
             by (intros ?%Hw; congruence));
      intuition congruence.
  - rewrite and_then_late, (and_then_late (CHECK_EXP _ _ _)),
      check_str_late, check_exp_late, check_str_ok.
    assert (Hrest : forall c,
              plain_status c -> c = WA_ERR_TOKEN_EXPIRED <-> False)
      by (intros c [-> | ->]; intuition congruence).
    rewrite (Hrest (and_then _ _)); [intuition congruence |].
    unfold plain_status.
    destruct (str_is (id_auth id) "krb5"), (str_is (id_auth id) "webkdc"),
      (id_subject id), (id_auth_data id),
      (Z.eqb_spec (id_auth_data_len id) 0); unfold CHECK_DATA; simpl;
      repeat match goal with
        | H : ?a = 0 |- context [?a =? 0] => rewrite H; simpl
        | H : ?a <> 0 |- context [?a =? 0] =>
            rewrite (proj2 (Z.eqb_neq a 0) H); simpl
        end; auto.
Qed.

Lemma plain_ok : plain_status WA_ERR_NONE.
Proof. by left. Qed.

Lemma plain_corrupt : plain_status WA_ERR_CORRUPT.
Proof. by right. Qed.

Lemma plain_str {A} (a : option A) : plain_status (CHECK_STR a).
Proof. destruct a; [apply plain_ok | apply plain_corrupt]. Qed.

Lemma plain_null {A} (a : option A) : plain_status (CHECK_NULL a).
Proof. destruct a; [apply plain_corrupt | apply plain_ok]. Qed.

Lemma plain_num a : plain_status (CHECK_NUM a).
Proof. unfold CHECK_NUM. case_match; auto using plain_ok, plain_corrupt. Qed.

Lemma plain_and_then c1 c2 :
  plain_status c1 -> plain_status c2 -> plain_status (and_then c1 c2).
Proof. intros [-> | ->] H2; simpl; [done | apply plain_corrupt]. Qed.

Lemma plain_if (b : bool) c1 c2 :
  plain_status c1 -> plain_status c2 -> plain_status (if b then c1 else c2).
Proof. by destruct b. Qed.

Lemma check_error_plain error mode : plain_status (check_error error mode).
Proof.
  unfold check_error.
  auto using plain_and_then, plain_num, plain_str.
Qed.

Lemma check_request_plain request mode :
  plain_status (check_request request mode).
Proof.
  unfold check_request, check_subject_auth, check_proxy_type.
  repeat case_match;
    auto 20 using plain_ok, plain_corrupt, plain_and_then, plain_null,
      plain_str, plain_if.
Qed.

(** X18: the checks of request and error tokens as conditions on the
    fields.  A request with a command carries nothing else; a request
    without one has a return URL and is of type id with authenticator krb5
    or webkdc, or of type proxy with proxy type krb5.  An error token has a
    nonzero code and a message.  Neither check looks at the clock: the
    answer is NONE or CORRUPT in both modes. *)
Theorem check_request_error_valid (now : Z) (mode : encode_mode) :
  (forall request : webauth_token_request,
     let r := check_token now (TokenRequest request) mode in
     (r = WA_ERR_NONE
        <-> (request_command request <> None
             /\ request_type request = None /\ request_auth request = None
             /\ request_proxy_type request = None
             /\ request_state request = None
             /\ request_return_url request = None
             /\ request_options request = None
             /\ request_initial_factors request = None
             /\ request_session_factors request = None)
            \/ (request_command request = None
                /\ request_return_url request <> None
                /\ ((request_type request = Some "id"%string
                     /\ (request_auth request = Some "krb5"%string
                         \/ request_auth request = Some "webkdc"%string))
                    \/ (request_type request = Some "proxy"%string
                        /\ request_proxy_type request
                             = Some "krb5"%string))))
     /\ (r = WA_ERR_NONE \/ r = WA_ERR_CORRUPT))
  /\ (forall error : webauth_token_error,
        let r := check_token now (TokenError error) mode in
        (r = WA_ERR_NONE
           <-> error_code error <> 0 /\ error_message error <> None)
        /\ (r = WA_ERR_NONE \/ r = WA_ERR_CORRUPT)).
Proof.
  split.
  - intros request. cbv zeta. simpl.
    split; [| apply check_request_plain].
    unfold check_request, check_subject_auth, check_proxy_type.
    destruct (request_command request).
    + rewrite !and_then_ok, !check_null_ok. intuition congruence.
    + rewrite !and_then_ok, !check_str_ok.
      pose proof (str_is_eq (request_type request) "id") as Hid.
      pose proof (str_is_eq (request_type request) "proxy") as Hpx.
      pose proof (str_is_eq (request_auth request) "krb5") as Hk.
      pose proof (str_is_eq (request_auth request) "webkdc") as Hw.
      pose proof (str_is_eq (request_proxy_type request) "krb5") as Hp.
      destruct (str_is (request_type request) "id").
      * rewrite and_then_ok, check_str_ok.
        destruct (str_is (request_auth request) "krb5"),
          (str_is (request_auth request) "webkdc"); simpl;
          intuition congruence.
      * destruct (str_is (request_type request) "proxy").
        -- rewrite and_then_ok, check_str_ok.
           destruct (str_is (request_proxy_type request) "krb5"); simpl;
             intuition congruence.
        -- intuition congruence.
  - intros error. cbv zeta. simpl.
    split; [| apply check_error_plain].
    unfold check_error. rewrite and_then_ok, check_num_ok, check_str_ok.
    done.
Qed.

(** X19: the checks of webkdc-factor, webkdc-proxy and webkdc-service
    tokens as conditions on the fields, with the cases in which they answer
    TOKEN_EXPIRED.  A webkdc-factor token needs a subject and initial or
    session factors; a webkdc-proxy token a subject, a proxy subject and a
    proxy type among krb5, remuser and otp; a webkdc-service token a subject
    and a session key of nonzero length; each a nonzero expiration, not past
    on decode. *)
Theorem check_webkdc_valid (now : Z) (mode : encode_mode) :
  (forall t : webauth_token_webkdc_factor,
     let r := check_token now (TokenWebkdcFactor t) mode in
     (r = WA_ERR_NONE
        <-> wkfactor_subject t <> None
            /\ wkfactor_expiration t <> 0
            /\ (mode = DECODE -> now <= wkfactor_expiration t)
            /\ (wkfactor_initial_factors t <> None
                \/ wkfactor_session_factors t <> None))
     /\ (r = WA_ERR_TOKEN_EXPIRED
           <-> mode = DECODE /\ wkfactor_subject t <> None
               /\ wkfactor_expiration t <> 0
               /\ wkfactor_expiration t < now))
  /\ (forall t : webauth_token_webkdc_proxy,
        let r := check_token now (TokenWebkdcProxy t) mode in
        (r = WA_ERR_NONE
           <-> wkproxy_subject t <> None
               /\ (wkproxy_proxy_type t = Some "krb5"%string
                   \/ wkproxy_proxy_type t = Some "remuser"%string
                   \/ wkproxy_proxy_type t = Some "otp"%string)
               /\ wkproxy_proxy_subject t <> None
               /\ wkproxy_expiration t <> 0
               /\ (mode = DECODE -> now <= wkproxy_expiration t))
        /\ (r = WA_ERR_TOKEN_EXPIRED
              <-> mode = DECODE /\ wkproxy_subject t <> None
                  /\ wkproxy_proxy_type t <> None
                  /\ wkproxy_proxy_subject t <> None
                  /\ wkproxy_expiration t <> 0
                  /\ wkproxy_expiration t < now))
  /\ (forall t : webauth_token_webkdc_service,
        let r := check_token now (TokenWebkdcService t) mode in
        (r = WA_ERR_NONE
           <-> wkservice_subject t <> None
               /\ wkservice_session_key t <> None
               /\ wkservice_session_key_len t <> 0
               /\ wkservice_expiration t <> 0
               /\ (mode = DECODE -> now <= wkservice_expiration t))
        /\ (r = WA_ERR_TOKEN_EXPIRED
              <-> mode = DECODE /\ wkservice_subject t <> None
                  /\ wkservice_session_key t <> None
                  /\ wkservice_session_key_len t <> 0
                  /\ wkservice_expiration t <> 0
                  /\ wkservice_expiration t < now)).
Proof.
  split; [| split].
  - intros t. cbv zeta. simpl. unfold check_webkdc_factor. split.
    + rewrite !and_then_ok, check_str_ok, check_exp_ok.
      destruct (wkfactor_initial_factors t), (wkfactor_session_factors t);
        intuition congruence.
    + rewrite and_then_late, (and_then_late (CHECK_EXP _ _ _)),
        check_str_late, check_exp_late, check_str_ok.
      destruct (wkfactor_initial_factors t), (wkfactor_session_factors t);
        intuition congruence.
  - intros t. cbv zeta. simpl. unfold check_webkdc_proxy.
    pose proof (str_is_eq (wkproxy_proxy_type t) "krb5") as Hk.
    pose proof (str_is_eq (wkproxy_proxy_type t) "remuser") as Hr.
    pose proof (str_is_eq (wkproxy_proxy_type t) "otp") as Ho.
    split.
    + rewrite !and_then_ok, !check_str_ok, check_exp_ok.
      destruct (str_is (wkproxy_proxy_type t) "krb5"),
        (str_is (wkproxy_proxy_type t) "remuser"),
        (str_is (wkproxy_proxy_type t) "otp"); simpl;
        intuition congruence.
    + rewrite !and_then_late, !check_str_late, !check_str_ok,
        check_exp_late.
      destruct (_ && _); intuition congruence.
  - intros t. cbv zeta. simpl. unfold check_webkdc_service. split.
    + rewrite !and_then_ok, check_str_ok, check_data_ok, check_exp_ok.
      intuition congruence.
    + rewrite and_then_late, (and_then_late (CHECK_DATA _ _)),
        check_str_late, check_data_late, check_str_ok, check_data_ok,
        check_exp_late.
      intuition congruence.
Qed.

(** ** Tokens: what the decoder and the encoder let through *)

(** INVALID is the verdict of [check_token] on the types [WA_TOKEN_UNKNOWN]
    and [WA_TOKEN_ANY] and on nothing else: no check of a known kind
    returns it. *)
Lemma check_token_invalid now token mode :
  check_token now token mode = WA_ERR_INVALID
  <-> token = TokenUnknown \/ token = TokenAny.
Proof.
  split; [| by intros [-> | ->]].
  pose (known := fun s => s = WA_ERR_NONE \/ s = WA_ERR_CORRUPT
                          \/ s = WA_ERR_TOKEN_EXPIRED).
  assert (Hknown : forall s, known s -> s = WA_ERR_INVALID -> False).
  { intros s [-> | [-> | ->]]; discriminate. }
  assert (Hn : known WA_ERR_NONE) by (by left).
  assert (Hc : known WA_ERR_CORRUPT) by (right; by left).
  assert (Hthen : forall c1 c2, known c1 -> known c2 ->
                                known (and_then c1 c2)).
  { intros c1 c2 [-> | [-> | ->]] H2; simpl; auto; unfold known; auto. }
  assert (Hif : forall (b : bool) c1 c2, known c1 -> known c2 ->
                                known (if b then c1 else c2)).
  { by intros []. }
  assert (Hstr : forall A (a : option A), known (CHECK_STR a)).
  { by intros A []. }
  assert (Hnull : forall A (a : option A), known (CHECK_NULL a)).
  { by intros A []. }
  assert (Hdata : forall a len, known (CHECK_DATA a len)).
  { intros a len. unfold CHECK_DATA. repeat case_match; auto. }
  assert (Hnum : forall a, known (CHECK_NUM a)).
  { intros a. unfold CHECK_NUM. case_match; auto. }
  assert (Hzero : forall a, known (CHECK_ZERO a)).
  { intros a. unfold CHECK_ZERO. case_match; auto. }
  assert (Hexp : forall e m, known (CHECK_EXP now e m)).
  { intros e m. unfold CHECK_EXP. apply Hthen; [auto |].
    destruct m; unfold check_expiration, known; try case_match; auto. }
  destruct token as [t | t | t | t | t | t | t | t | t | t | |]; simpl;
    auto; intros Hx; exfalso; revert Hx; apply Hknown;
    unfold check_app, check_cred, check_error, check_id, check_login,
      check_proxy, check_request, check_webkdc_factor, check_webkdc_proxy,
      check_webkdc_service, check_cred_type, check_proxy_type,
      check_subject_auth;
    repeat case_match; auto 20.
Qed.

(** X14: [check_token], [wai_token_encoding] and the table of names agree
    on the token types.  [check_token] answers INVALID exactly when
    [wai_token_encoding] does, that is for [WA_TOKEN_UNKNOWN] and
    [WA_TOKEN_ANY] and for nothing else; rules are stored exactly when the
    status is NONE; two tokens get the same rules exactly when they have the
    same type; and a type with rules has a code from 1 to 10 and a name that
    [webauth_token_type_code] maps back to it. *)
Theorem known_token_types_agree (now : Z) (token : webauth_token)
    (mode : encode_mode) :
  (check_token now token mode = WA_ERR_INVALID
     <-> (wai_token_encoding token).1 = WA_ERR_INVALID)
  /\ ((wai_token_encoding token).1 = WA_ERR_NONE
        <-> token_type token <> WA_TOKEN_UNKNOWN
            /\ token_type token <> WA_TOKEN_ANY)
  /\ ((wai_token_encoding token).1 = WA_ERR_NONE
        <-> (wai_token_encoding token).2 <> None)
  /\ (forall other : webauth_token,
        (wai_token_encoding token).1 = WA_ERR_NONE ->
        (wai_token_encoding token = wai_token_encoding other
           <-> token_type token = token_type other))
  /\ ((wai_token_encoding token).1 = WA_ERR_NONE ->
      exists code : Z,
        1 <= code <= 10
        /\ token_type_code (token_type token) = code
        /\ webauth_token_type_code
             <$> webauth_token_type_string (token_type token)
           = Some (token_type token)).
Proof.
  rewrite check_token_invalid.
  split; [| split; [| split; [| split]]].
  - destruct token; simpl; intuition congruence.
  - destruct token; simpl; intuition congruence.
  - destruct token; simpl; intuition congruence.
  - intros other.
    destruct token; simpl; try discriminate; intros _;
      destruct other; simpl; intuition congruence.
  - destruct token; simpl; try discriminate; intros _;
      eexists; (split; [| split; [reflexivity | by vm_compute]]); lia.
Qed.

(** A record that passes its checks in either mode passes those of ENCODE
    mode at any time, and its expiration, if its kind has one, is set; when
    the mode was DECODE the expiration is not yet past. *)
Lemma check_token_accepts now now' token mode :
  check_token now token mode = WA_ERR_NONE ->
  check_token now' token ENCODE = WA_ERR_NONE
  /\ forall e, token_expiration token = Some e ->
               e <> 0 /\ (mode = DECODE -> now <= e).
Proof.
  assert (Hexp : forall e c,
            and_then (CHECK_EXP now e mode) c = WA_ERR_NONE ->
            and_then (CHECK_EXP now' e ENCODE) c = WA_ERR_NONE
            /\ e <> 0 /\ (mode = DECODE -> now <= e)).
  { intros e c. rewrite !and_then_ok, !check_exp_ok. intuition congruence. }
  assert (Hexp' : forall e,
            CHECK_EXP now e mode = WA_ERR_NONE ->
            CHECK_EXP now' e ENCODE = WA_ERR_NONE
            /\ e <> 0 /\ (mode = DECODE -> now <= e)).
  { intros e. rewrite !check_exp_ok. intuition congruence. }
  assert (Hstep : forall c c1 c2 (P : Prop),
            (c1 = WA_ERR_NONE -> c2 = WA_ERR_NONE /\ P) ->
            and_then c c1 = WA_ERR_NONE ->
            and_then c c2 = WA_ERR_NONE /\ P).
  { intros c c1 c2 P H12. rewrite !and_then_ok. intuition. }
  destruct token as [t | t | t | t | t | t | t | t | t | t | |]; simpl;
    try discriminate;
    try (intros Hd; split; [exact Hd | discriminate]);
    unfold check_app, check_cred, check_id, check_proxy,
      check_webkdc_factor, check_webkdc_proxy, check_webkdc_service;
    intros Hdec;
    match goal with
    | |- ?A /\ (forall e, Some ?x = Some e -> _) =>
        cut (A /\ (x <> 0 /\ (mode = DECODE -> now <= x)));
        [intros [? ?]; split; [done | by intros e [= <-]] | revert Hdec]
    end;
    repeat first [exact (Hexp _ _) | exact (Hexp' _) | apply Hstep].
Qed.

Lemma expected_type_matches type out :
  bool_decide (type <> WA_TOKEN_ANY) && bool_decide (type <> token_type out)
    = false ->
  type = WA_TOKEN_ANY \/ type = token_type out.
Proof.
  intros Ht.
  destruct (decide (type = WA_TOKEN_ANY)); [by left |].
  destruct (decide (type = token_type out)); [by right |].
  rewrite !bool_decide_eq_true_2 in Ht by done. discriminate.
Qed.

Section TokenPipelineMore.
Context `{TokenDeps}.

(** X20: what [webauth_token_decode] lets through.  Whenever it stores a
    record, the status is NONE, the token was not NULL, its base64 decoding
    decrypted under the keyring and parsed to that record, the record is of
    the expected type (or any type was expected) and of a known type, it
    passes [check_token] in DECODE mode, and its expiration, if its kind has
    one, is nonzero and not before the current time. *)
Theorem token_decode_sound (now : Z) (type : webauth_token_type)
    (token : option string) (ring : option webauth_keyring) (s : status)
    (out : webauth_token) :
  webauth_token_decode now type token ring = (s, Some out) ->
  s = WA_ERR_NONE
  /\ (type = WA_TOKEN_ANY \/ type = token_type out)
  /\ token_type out <> WA_TOKEN_UNKNOWN
  /\ token_type out <> WA_TOKEN_ANY
  /\ check_token now out DECODE = WA_ERR_NONE
  /\ (forall e, token_expiration out = Some e -> e <> 0 /\ now <= e)
  /\ exists (tok : string) (attrs : bytes),
       token = Some tok
       /\ webauth_token_decrypt now (apr_base64_decode tok) ring = inr attrs
       /\ wai_decode_token attrs = inr out.
Proof.
  unfold webauth_token_decode. destruct token as [tok |]; [| discriminate].
  cbv zeta. unfold webauth_token_decode_raw. rewrite token_type_named.
  destruct (webauth_token_decrypt now (apr_base64_decode tok) ring)
    as [e | attrs] eqn:Hopen; [discriminate |].
  destruct (wai_decode_token attrs) as [e | out'] eqn:Hparse;
    [discriminate |].
  destruct (bool_decide (type <> WA_TOKEN_ANY)
            && bool_decide (type <> token_type out')) eqn:Htype;
    [discriminate |].
  destruct (check_token now out' DECODE) eqn:Hcheck; try discriminate.
  intros [= <- <-].
  destruct (check_token_accepts now now out' DECODE Hcheck) as [Henc Hexp].
  split; [done |]. split.
  { by apply expected_type_matches. }
  split; [by intros Hu; destruct out' |].
  split; [by intros Hu; destruct out' |].
  split; [done |].
  split; [intros e He; destruct (Hexp e He); auto |]. by exists tok, attrs.
Qed.

(** X21: a record that [webauth_token_decode] has stored is accepted by the
    check of [webauth_token_encode_raw] at any later time and with any
    keyring: encoding it goes on to the serialisation and the encryption,
    it cannot fail with CORRUPT or INVALID from the check. *)
Theorem decoded_token_reencodes (now now' : Z) (type : webauth_token_type)
    (token : option string) (ring : option webauth_keyring) (s : status)
    (out : webauth_token) (rand : option bytes) (ring' : webauth_keyring) :
  webauth_token_decode now type token ring = (s, Some out) ->
  check_token now' out ENCODE = WA_ERR_NONE
  /\ webauth_token_encode_raw now' rand out (Some ring')
     = match wai_encode_token out with
       | inl e => (e, None)
       | inr attrs =>
           match webauth_token_encrypt now' rand attrs ring' with
           | inl e => (e, None)
           | inr output => (WA_ERR_NONE, Some output)
           end
       end.
Proof.
  unfold webauth_token_decode. destruct token as [tok |]; [| discriminate].
  cbv zeta. unfold webauth_token_decode_raw. rewrite token_type_named.
  destruct (webauth_token_decrypt now (apr_base64_decode tok) ring)
    as [e | attrs]; [discriminate |].
  destruct (wai_decode_token attrs) as [e | out']; [discriminate |].
  destruct (_ && _); [discriminate |].
  destruct (check_token now out' DECODE) eqn:Hcheck; try discriminate.
  intros [= <- <-].
  destruct (check_token_accepts now now' out' DECODE Hcheck) as [Henc _].
  split; [done |]. unfold webauth_token_encode_raw. by rewrite Henc.
Qed.

(** X22: what [webauth_token_encode] lets through.  Whenever it stores a
    token, the status is NONE, the keyring was not NULL, the record passes
    [check_token] in ENCODE mode, is of a known type and has a nonzero
    expiration if its kind has one, and the token is the base64 encoding of
    what [webauth_token_encode_raw] stored, the encryption of the
    serialised record. *)
Theorem token_encode_sound (now : Z) (rand : option bytes)
    (data : webauth_token) (ring : option webauth_keyring) (s : status)
    (token : string) :
  webauth_token_encode now rand data ring = (s, Some token) ->
  s = WA_ERR_NONE
  /\ check_token now data ENCODE = WA_ERR_NONE
  /\ token_type data <> WA_TOKEN_UNKNOWN
  /\ token_type data <> WA_TOKEN_ANY
  /\ (forall e, token_expiration data = Some e -> e <> 0)
  /\ exists (keys : webauth_keyring) (attrs raw : bytes),
       ring = Some keys
       /\ wai_encode_token data = inr attrs
       /\ webauth_token_encrypt now rand attrs keys = inr raw
       /\ webauth_token_encode_raw now rand data ring
          = (WA_ERR_NONE, Some raw)
       /\ token = apr_base64_encode raw.
Proof.
  unfold webauth_token_encode, webauth_token_encode_raw.
  destruct ring as [keys |]; [| discriminate].
  destruct (check_token now data ENCODE) eqn:Hcheck; cbn;
    try discriminate.
  destruct (wai_encode_token data) as [e | attrs] eqn:Hattrs; cbn;
    [by destruct e |].
  destruct (webauth_token_encrypt now rand attrs keys) as [e | raw] eqn:Hseal;
    cbn; [by destruct e |].
  intros [= <- <-]. split; [done |]. split; [done |].
  split; [by intros Hu; destruct data |].
  split; [by intros Hu; destruct data |].
  split; [| by exists keys, attrs, raw].
  intros e He.
  by destruct (check_token_accepts now now data ENCODE Hcheck) as [_ Hexp];
    destruct (Hexp e He).
Qed.

(** X23: [webauth_token_decode_raw] answers TOKEN_EXPIRED only for a token
    that decrypted under the keyring and parsed to a record of the expected
    type whose expiration lies before the current time, and it stores
    nothing then; provided the decryption and the parser do not themselves
    answer TOKEN_EXPIRED on this input. *)
Theorem decode_expired_is_authentic (now : Z) (type : webauth_token_type)
    (input : bytes) (ring : option webauth_keyring) :
  webauth_token_decrypt now input ring <> inl WA_ERR_TOKEN_EXPIRED ->
  (forall attrs, webauth_token_decrypt now input ring = inr attrs ->
                 wai_decode_token attrs <> inl WA_ERR_TOKEN_EXPIRED) ->
  (webauth_token_decode_raw now type input ring).1 = WA_ERR_TOKEN_EXPIRED ->
  (webauth_token_decode_raw now type input ring).2 = None
  /\ exists (attrs : bytes) (out : webauth_token) (e : Z),
       webauth_token_decrypt now input ring = inr attrs
       /\ wai_decode_token attrs = inr out
       /\ (type = WA_TOKEN_ANY \/ type = token_type out)
       /\ token_expiration out = Some e
       /\ e < now.
Proof.
  intros Hopen_ok Hparse_ok.
  unfold webauth_token_decode_raw. rewrite token_type_named.
  destruct (webauth_token_decrypt now input ring)
    as [e | attrs] eqn:Hopen; [simpl; congruence |].
  specialize (Hparse_ok attrs eq_refl).
  destruct (wai_decode_token attrs) as [e | out] eqn:Hparse;
    [simpl; congruence |].
  destruct (bool_decide (type <> WA_TOKEN_ANY)
            && bool_decide (type <> token_type out)) eqn:Htype;
    [discriminate |].
  destruct (check_token now out DECODE) eqn:Hcheck; try discriminate.
  intros _. split; [done |].
  destruct (token_expired_only_on_decode _ _ _ Hcheck) as (_ & e & He & Hlt).
  exists attrs, out, e.
  split; [done |]. split; [done |]. split.
  { by apply expected_type_matches. }
  done.
Qed.

End TokenPipelineMore.

(** X20 on the id token of the examples, sealed at 1000 and decoded at
    1001. *)
Lemma token_decode_sound_example :
  check_token 1001 alice DECODE = WA_ERR_NONE
  /\ (forall e, token_expiration alice = Some e -> e <> 0 /\ 1001 <= e)
  /\ exists (tok : string) (attrs : bytes),
       Some sealed_alice = Some tok
       /\ TokenModel.decrypt 1001 (Base64.decode tok) (Some sample_ring)
          = inr attrs
       /\ TokenModel.decode_token attrs = inr alice.
Proof.
  destruct (@token_decode_sound TokenModel.deps 1001 WA_TOKEN_ID
              (Some sealed_alice) (Some sample_ring) WA_ERR_NONE alice)
    as (_ & _ & _ & _ & Hcheck & Hexp & Hfrom).
  - reflexivity.
  - split; [exact Hcheck |]. split; [exact Hexp | exact Hfrom].
Defined.

(** X21 on the same token: decoded at 1001, it passes the encoder's check
    at 9999, past its expiration, and with another keyring. *)
Lemma decoded_token_reencodes_example :
  check_token 9999 alice ENCODE = WA_ERR_NONE
  /\ @webauth_token_encode_raw TokenModel.deps 9999 None alice
       (Some tied_ring)
     = match TokenModel.encode_token alice with
       | inl e => (e, None)
       | inr attrs =>
           match TokenModel.encrypt 9999 None attrs tied_ring with
           | inl e => (e, None)
           | inr output => (WA_ERR_NONE, Some output)
           end
       end.
Proof.
  apply (@decoded_token_reencodes TokenModel.deps 1001 9999 WA_TOKEN_ANY
           (Some sealed_alice) (Some sample_ring) WA_ERR_NONE alice None
           tied_ring).
  reflexivity.
Defined.

(** X22 on the id token of the examples. *)
Lemma token_encode_sound_example :
  check_token 1000 alice ENCODE = WA_ERR_NONE
  /\ token_type alice <> WA_TOKEN_UNKNOWN
  /\ (forall e, token_expiration alice = Some e -> e <> 0).
Proof.
  destruct (@token_encode_sound TokenModel.deps 1000 (Some (repeat x01 16))
              alice (Some sample_ring) WA_ERR_NONE sealed_alice)
    as (_ & Hcheck & Hknown & _ & Hexp & _).
  - reflexivity.
  - split; [exact Hcheck |]. split; [exact Hknown | exact Hexp].
Defined.

(** X23 on the id token of the examples, decoded one second after it
    expired. *)
Lemma decode_expired_is_authentic_example :
  (@webauth_token_decode_raw TokenModel.deps 4601 WA_TOKEN_ID
     sealed_alice_raw (Some sample_ring)).2 = None
  /\ exists (attrs : bytes) (out : webauth_token) (e : Z),
       TokenModel.decrypt 4601 sealed_alice_raw (Some sample_ring)
         = inr attrs
       /\ TokenModel.decode_token attrs = inr out
       /\ (WA_TOKEN_ID = WA_TOKEN_ANY \/ WA_TOKEN_ID = token_type out)
       /\ token_expiration out = Some e
       /\ e < 4601.
Proof.
  apply (@decode_expired_is_authentic TokenModel.deps 4601 WA_TOKEN_ID
           sealed_alice_raw (Some sample_ring)).
  - vm_compute. discriminate.
  - intros attrs Hattrs. vm_compute in Hattrs. injection Hattrs as <-.
    vm_compute. discriminate.
  - reflexivity.
Defined.

(** ** Keyring files: order of the entries, replacement, creation, rotation *)

Lemma append_extends (p s : string) : p +:+ s = p -> s = ""%string.
Proof. induction p as [| a p IH]; simpl; [done |]. intros [= Hp]. auto. Qed.

Lemma temp_name_fresh env path : temp_name env path <> path.
Proof. unfold temp_name. by intros Heq%append_extends. Qed.

Section KeyringFilesMore.
Context `{KeyringDeps}.

Lemma decode_entries_in_order entries : forall acc ring,
  decode_entries entries acc = inr ring ->
  exists tail, ring = acc ++ tail /\ Forall2 decoded_from entries tail.
Proof.
  induction entries as [| w rest IH]; intros acc ring; simpl.
  - intros [= <-]. exists []. by rewrite app_nil_r.
  - destruct (entry_key w) as [s | k] eqn:Hk; [discriminate |].
    intros (tail & -> & Htail)%IH. rewrite keyring_add_appends.
    eexists (_ :: tail). rewrite <- app_assoc. split; [done |].
    by constructor.
Qed.

Lemma decode_entries_of_ring ring : forall acc,
  Forall (fun e => entry_key (wai_of_entry e) = inr (key e)) ring ->
  decode_entries (map wai_of_entry ring) acc = inr (acc ++ ring).
Proof.
  induction ring as [| e rest IH]; intros acc Hkeys; simpl.
  - by rewrite app_nil_r.
  - apply Forall_cons in Hkeys as [He Hrest]. rewrite He.
    rewrite keyring_add_appends, IH by done.
    rewrite <- app_assoc. by destruct e.
Qed.

(** X6: a keyring that [webauth_keyring_decode] stores comes with status
    NONE from a file of version 1 and holds, in the order of the file, one
    entry for each of the first [entry_count] entries parsed: same creation
    time, same [valid_after], and the key [webauth_key_create] made of the
    key type, length and material of that entry. *)
Theorem keyring_decode_in_order (input : bytes) (s : status)
    (ring : webauth_keyring) :
  webauth_keyring_decode input = (s, Some ring) ->
  s = WA_ERR_NONE
  /\ exists data,
       webauth_decode input = inr data
       /\ wk_version data = KEYRING_VERSION
       /\ Forall2 decoded_from
            (take (Z.to_nat (wk_entry_count data)) (wk_entry data)) ring
       /\ (length ring <= Z.to_nat (wk_entry_count data))%nat.
Proof.
  unfold webauth_keyring_decode.
  destruct (webauth_decode input) as [e | data]; [discriminate |].
  destruct (Z.eqb_spec (wk_version data) KEYRING_VERSION) as [Hv | Hv];
    simpl; [| discriminate].
  destruct (decode_entries _ _) as [e | r] eqn:Hr; [discriminate |].
  intros [= <- <-]. split; [done |]. exists data.
  apply decode_entries_in_order in Hr as (tail & -> & Htail).
  unfold webauth_keyring_new. simpl.
  split; [done |]. split; [done |]. split; [done |].
  apply Forall2_length in Htail. rewrite <- Htail, length_take. lia.
Qed.

(** X7: a keyring written by [webauth_keyring_write] with status NONE is
    read back by [webauth_keyring_read] from the resulting file system,
    entry for entry, provided the attribute codec gives back the structure
    it encoded and [webauth_key_create] rebuilds each key from its type,
    length and material. *)
Theorem keyring_write_read_round_trip (env env' : call_env)
    (ring : webauth_keyring) (path : string) (fs fs' : filesystem) :
  webauth_keyring_write env ring path fs = (WA_ERR_NONE, fs') ->
  env_read env' = ReadOk ->
  (forall buf, webauth_keyring_encode ring = inr buf ->
               webauth_decode buf = inr (wai_of_ring ring)) ->
  Forall (fun e => entry_key (wai_of_entry e) = inr (key e)) ring ->
  webauth_keyring_read env' path fs' = (WA_ERR_NONE, Some ring).
Proof.
  intros (buf & Hbuf & ->)%keyring_write_success Hread Hcodec Hkeys.
  unfold webauth_keyring_read, wai_file_read.
  rewrite lookup_insert_eq, Hread.
  unfold webauth_keyring_decode. rewrite (Hcodec buf Hbuf). simpl.
  rewrite Nat2Z.id, <- (length_map wai_of_entry), firstn_all.
  by rewrite decode_entries_of_ring.
Qed.

(** A write that fails touches no file but its own temporary one. *)
Lemma keyring_write_failure env ring path fs s fs' :
  webauth_keyring_write env ring path fs = (s, fs') ->
  s <> WA_ERR_NONE ->
  (s = WA_ERR_FILE_OPENWRITE \/ s = WA_ERR_FILE_WRITE
   \/ webauth_keyring_encode ring = inl s)
  /\ forall p, p <> temp_name env path -> fs' !! p = fs !! p.
Proof.
  unfold webauth_keyring_write, write_done.
  destruct (env_mktemp env); cbn [negb andb];
    [| intros [= <- <-]; by auto].
  case_bool_decide as Htemp; cbn [negb andb];
    [| intros [= <- <-]; by auto].
  destruct (webauth_keyring_encode ring) as [e | buf] eqn:Hbuf.
  { intros [= <- <-] _. split; [by auto |].
    intros p Hp. by rewrite lookup_delete_ne, lookup_insert_ne. }
  destruct (env_write env); cbn [negb andb].
  - destruct (env_close env); cbn [negb andb].
    + destruct (env_rename env); cbn [negb andb].
      * by intros [= <- <-].
      * intros [= <- <-] _. split; [by auto |].
        intros p Hp. by rewrite !lookup_insert_ne.
    + intros [= <- <-] _. split; [by auto |].
      intros p Hp. by rewrite !lookup_insert_ne.
  - intros [= <- <-] _. split; [by auto |].
    intros p Hp. by rewrite lookup_delete_ne, !lookup_insert_ne.
Qed.

(** X8: [webauth_keyring_write] replaces the keyring file in one step or
    not at all.  No file other than the target and the temporary file is
    touched; when the status is not NONE the target is as it was before the
    call; when it is NONE the file system is the old one with the encoded
    keyring under the target path and nothing else.  The status is NONE,
    FILE_OPENWRITE, FILE_WRITE or the status of the encoder. *)
Theorem keyring_write_atomic (env : call_env) (ring : webauth_keyring)
    (path : string) (fs : filesystem) :
  let r := webauth_keyring_write env ring path fs in
  (forall p, p <> temp_name env path -> p <> path -> r.2 !! p = fs !! p)
  /\ (r.1 <> WA_ERR_NONE -> r.2 !! path = fs !! path)
  /\ (r.1 = WA_ERR_NONE ->
      exists buf, webauth_keyring_encode ring = inr buf
                  /\ r.2 = <[path := buf]> fs)
  /\ (r.1 = WA_ERR_NONE \/ r.1 = WA_ERR_FILE_OPENWRITE
      \/ r.1 = WA_ERR_FILE_WRITE
      \/ webauth_keyring_encode ring = inl r.1).
Proof.
  cbv zeta. pose proof (temp_name_fresh env path) as Hfresh.
  destruct (webauth_keyring_write env ring path fs) as [s fs'] eqn:Hw.
  cbn [fst snd].
  destruct (decide (s = WA_ERR_NONE)) as [-> | Hs].
  - destruct (keyring_write_success _ _ _ _ _ Hw) as (buf & Hbuf & ->).
    split; [intros p _ Hp; by rewrite lookup_insert_ne |].
    split; [done |]. split; [by eauto | by auto].
  - destruct (keyring_write_failure _ _ _ _ _ _ Hw Hs) as [Hkind Hfs].
    split; [by auto |]. split; [by auto |]. split; [done | by auto].
Qed.

(** X9: when the keyring cannot be read or decoded and either [create] is
    not set or the failure is not FILE_NOT_FOUND, [webauth_keyring_auto_update]
    returns the status of the read, stores no keyring, reports
    [WA_KAU_NONE] and leaves the file system alone: a keyring file that is
    there but damaged is never replaced. *)
Theorem auto_update_keeps_unreadable (env : call_env) (path : string)
    (create : bool) (lifetime : Z) (fs : filesystem) :
  (webauth_keyring_read env path fs).1 <> WA_ERR_NONE ->
  create = false
  \/ (webauth_keyring_read env path fs).1 <> WA_ERR_FILE_NOT_FOUND ->
  webauth_keyring_auto_update env path create lifetime fs
    = {| au_status := (webauth_keyring_read env path fs).1;
         au_ring := None; au_updated := WA_KAU_NONE;
         au_update_status := WA_ERR_NONE; au_fs := fs |}.
Proof.
  intros Hfail Hkeep. unfold webauth_keyring_auto_update.
  pose proof (keyring_read_output env path fs) as Hout.
  destruct (webauth_keyring_read env path fs) as [s r0]. simpl in *.
  assert (Hr0 : r0 = None).
  { destruct r0; [| done]. destruct Hfail. apply Hout. eauto. }
  subst r0. rewrite (bool_decide_eq_false_2 _ Hfail). simpl.
  destruct Hkeep as [-> | Hnf]; [done |].
  rewrite (bool_decide_eq_false_2 _ Hnf). simpl. by rewrite orb_true_r.
Qed.

(** X10: [webauth_keyring_auto_update] with [create] set on a path that
    does not exist reports [WA_KAU_CREATE].  When no key can be made it
    returns that status and stores no keyring.  Otherwise it stores a
    keyring of one key whose two times are the current time, which is at
    once the key [webauth_keyring_best_key] picks for encryption; the status
    is that of [webauth_keyring_write], the file holds the encoded keyring
    when it is NONE and does not exist when it is not. *)
Theorem auto_update_creates (env : call_env) (path : string)
    (lifetime : Z) (fs : filesystem) :
  fs !! path = None ->
  let r := webauth_keyring_auto_update env path true lifetime fs in
  let now := env_now env in
  au_updated r = WA_KAU_CREATE
  /\ au_update_status r = WA_ERR_NONE
  /\ match webauth_key_create (env_rand env) WA_KEY_AES WA_AES_128 None with
     | inl s => au_status r = s /\ au_ring r = None /\ au_fs r = fs
     | inr k =>
         let ring := [ {| creation := now; valid_after := now; key := k |} ] in
         au_ring r = Some ring
         /\ webauth_keyring_best_key ring WA_KEY_ENCRYPT 0 now
            = (WA_ERR_NONE, Some k)
         /\ (au_status r, au_fs r) = webauth_keyring_write env ring path fs
         /\ (au_status r = WA_ERR_NONE ->
             exists buf, webauth_keyring_encode ring = inr buf
                         /\ au_fs r = <[path := buf]> fs)
         /\ (au_status r <> WA_ERR_NONE -> au_fs r !! path = None)
     end.
Proof.
  intros Hnone. cbv zeta. unfold webauth_keyring_auto_update.
  unfold webauth_keyring_read, wai_file_read. rewrite Hnone. simpl.
  unfold new_ring.
  destruct (webauth_key_create (env_rand env) WA_KEY_AES WA_AES_128 None)
    as [s | k] eqn:Hk; simpl; [done |].
  unfold webauth_keyring_new. rewrite keyring_add_appends. simpl.
  destruct (webauth_keyring_write env _ path fs) as [s fs'] eqn:Hw. simpl.
  split; [done |]. split; [done |]. split; [done |].
  split.
  { unfold webauth_keyring_best_key, best_entry. simpl.
    unfold best_key_step. simpl. by rewrite Z.gtb_ltb, Z.ltb_irrefl. }
  split; [done |]. split.
  - intros ->. by apply keyring_write_success in Hw.
  - intros Hs.
    destruct (keyring_write_failure _ _ _ _ _ _ Hw Hs) as [_ Hfs].
    rewrite Hfs; [done |]. intros Heq. by apply (temp_name_fresh env path).
Qed.

(** X11: when [webauth_keyring_auto_update] reports [WA_KAU_UPDATE] on a
    keyring it could read, its own status is NONE and the lifetime is
    positive.  If no key could be made, the update status is that failure
    and keyring and file are unchanged.  Otherwise the keyring handed back
    has one more key, with both times the current time, whether or not the
    file could be written: when the update status is not NONE the file
    still holds the old keyring. *)
Theorem auto_update_rotation_outcome (env : call_env) (path : string)
    (create : bool) (lifetime : Z) (fs : filesystem)
    (r0 : webauth_keyring) :
  webauth_keyring_read env path fs = (WA_ERR_NONE, Some r0) ->
  let r := webauth_keyring_auto_update env path create lifetime fs in
  let now := env_now env in
  au_updated r = WA_KAU_UPDATE ->
  au_status r = WA_ERR_NONE
  /\ 0 < lifetime
  /\ match webauth_key_create (env_rand env) WA_KEY_AES WA_AES_128 None with
     | inl s => au_update_status r = s /\ au_ring r = Some r0 /\ au_fs r = fs
     | inr k =>
         let ring :=
           r0 ++ [ {| creation := now; valid_after := now; key := k |} ] in
         au_ring r = Some ring
         /\ (au_update_status r, au_fs r)
            = webauth_keyring_write env ring path fs
         /\ (au_update_status r = WA_ERR_NONE ->
             exists buf, webauth_keyring_encode ring = inr buf
                         /\ au_fs r = <[path := buf]> fs)
         /\ (au_update_status r <> WA_ERR_NONE ->
             au_fs r !! path = fs !! path)
     end.
Proof.
  intros Hread. cbv zeta. unfold webauth_keyring_auto_update.
  rewrite Hread. simpl.
  destruct (Z.gtb_spec lifetime 0) as [Hl | Hl]; [| discriminate].
  unfold check_ring.
  destruct (existsb _ r0); [discriminate |].
  destruct (webauth_key_create (env_rand env) WA_KEY_AES WA_AES_128 None)
    as [s | k] eqn:Hk; simpl; [done |].
  rewrite keyring_add_appends.
  destruct (webauth_keyring_write env _ path fs) as [s fs'] eqn:Hw. simpl.
  intros _. split; [done |]. split; [done |]. split; [done |].
  split; [done |]. split.
  - intros ->. by apply keyring_write_success in Hw.
  - intros Hs.
    destruct (keyring_write_failure _ _ _ _ _ _ Hw Hs) as [_ Hfs].
    apply Hfs. intros Heq. by apply (temp_name_fresh env path).
Qed.

(** X12: for a lifetime and keyring times that [time_t] can hold,
    [webauth_keyring_auto_update] on a readable keyring reports
    [WA_KAU_UPDATE] exactly when [valid_after] plus the lifetime is at or
    before the current time for every entry (keys not yet valid count like
    any other, an empty keyring always rotates), and [WA_KAU_NONE], with
    keyring and file unchanged, exactly when some entry is younger. *)
Theorem auto_update_rotation_criterion (env : call_env) (path : string)
    (create : bool) (lifetime : Z) (fs : filesystem)
    (r0 : webauth_keyring) :
  webauth_keyring_read env path fs = (WA_ERR_NONE, Some r0) ->
  0 < lifetime < 2 ^ 63 ->
  Forall (fun e => - 2 ^ 63 <= valid_after e
                   /\ valid_after e + lifetime < 2 ^ 63) r0 ->
  let r := webauth_keyring_auto_update env path create lifetime fs in
  let now := env_now env in
  (au_updated r = WA_KAU_UPDATE
     <-> Forall (fun e => valid_after e + lifetime <= now) r0)
  /\ (au_updated r = WA_KAU_NONE
        <-> Exists (fun e => now < valid_after e + lifetime) r0)
  /\ (au_updated r = WA_KAU_NONE ->
      au_status r = WA_ERR_NONE /\ au_update_status r = WA_ERR_NONE
      /\ au_ring r = Some r0 /\ au_fs r = fs).
Proof.
  intros Hread Hl Hrange. cbv zeta.
  assert (Hfresh : forall e, e ∈ r0 ->
            still_fresh lifetime (env_now env) e = true
            <-> env_now env < valid_after e + lifetime).
  { intros e He. rewrite Forall_forall in Hrange.
    destruct (Hrange e He) as [Hlo Hhi]. unfold still_fresh.
    rewrite (time_t_of_small lifetime) by lia.
    rewrite time_t_of_small by lia. lia. }
  assert (Hex : existsb (still_fresh lifetime (env_now env)) r0 = true
            <-> Exists (fun e => env_now env < valid_after e + lifetime) r0).
  { rewrite existsb_exists, Exists_exists. split.
    - intros (e & He%list_elem_of_In & Hf). exists e. split; [done |].
      by apply Hfresh.
    - intros (e & He & Hf). exists e. split; [by apply list_elem_of_In |].
      by apply Hfresh. }
  assert (Hall : Forall (fun e => valid_after e + lifetime <= env_now env) r0
            <-> ~ Exists (fun e => env_now env < valid_after e + lifetime) r0).
  { rewrite <- Forall_Exists_neg. apply Forall_iff. intros e. lia. }
  rewrite Hall, <- Hex.
  unfold webauth_keyring_auto_update. rewrite Hread. simpl.
  destruct (Z.gtb_spec lifetime 0) as [_ | ?]; [| lia].
  unfold check_ring.
  destruct (existsb _ r0); simpl.
  - split; [split; [discriminate | by intros []] |]. done.
  - destruct (webauth_key_create _ _ _ _) as [s | k]; simpl.
    + split; [split; [by intros _ | done] |].
      split; [split; discriminate | discriminate].
    + destruct (webauth_keyring_write _ _ _ _) as [s fs']; simpl.
      split; [split; [by intros _ | done] |].
      split; [split; discriminate | discriminate].
Qed.

End KeyringFilesMore.

(** X6 on the keyring file of the examples. *)
Lemma keyring_decode_in_order_example :
  exists data,
    KeyringModel.decode_keyring sample_file = inr data
    /\ wk_version data = KEYRING_VERSION
    /\ Forall2 (@decoded_from KeyringModel.deps)
         (take (Z.to_nat (wk_entry_count data)) (wk_entry data)) sample_ring
    /\ (length sample_ring <= Z.to_nat (wk_entry_count data))%nat.
Proof.
  destruct (@keyring_decode_in_order KeyringModel.deps sample_file
              WA_ERR_NONE sample_ring) as [_ Hdata].
  - reflexivity.
  - exact Hdata.
Defined.

(** X7: the keyring of the examples written to an empty file system and
    read back. *)
Lemma keyring_write_read_round_trip_example :
  @webauth_keyring_read KeyringModel.deps (sample_env 1001) "keyring"
    sample_fs
  = (WA_ERR_NONE, Some sample_ring).
Proof.
  apply (@keyring_write_read_round_trip KeyringModel.deps (sample_env 1000)
           (sample_env 1001) sample_ring "keyring" ∅ sample_fs).
  - reflexivity.
  - reflexivity.
  - intros buf Hbuf. vm_compute in Hbuf. injection Hbuf as <-. reflexivity.
  - repeat constructor.
Defined.

(** X9 on a keyring file of version 2, with [create] set. *)
Lemma auto_update_keeps_unreadable_example :
  @webauth_keyring_auto_update KeyringModel.deps (sample_env 2000)
    "keyring" true 500 {[ "keyring"%string := sample_file_v2 ]}
  = {| au_status :=
         (@webauth_keyring_read KeyringModel.deps (sample_env 2000)
            "keyring" {[ "keyring"%string := sample_file_v2 ]}).1;
       au_ring := None; au_updated := WA_KAU_NONE;
       au_update_status := WA_ERR_NONE;
       au_fs := {[ "keyring"%string := sample_file_v2 ]} |}.
Proof.
  apply (@auto_update_keeps_unreadable KeyringModel.deps (sample_env 2000)
           "keyring" true 500 {[ "keyring"%string := sample_file_v2 ]}).
  - vm_compute. discriminate.
  - right. vm_compute. discriminate.
Defined.

(** X10 on an empty file system. *)
Lemma auto_update_creates_example :
  let r := @webauth_keyring_auto_update KeyringModel.deps (sample_env 2000)
             "keyring" true 500 ∅ in
  au_updated r = WA_KAU_CREATE /\ au_update_status r = WA_ERR_NONE.
Proof.
  destruct (@auto_update_creates KeyringModel.deps (sample_env 2000)
              "keyring" 500 ∅) as (Hcreate & Hstatus & _).
  - reflexivity.
  - split; [exact Hcreate | exact Hstatus].
Defined.

(** X11 on the keyring of the examples, whose key is 1000 seconds old, with
    a lifetime of 500. *)
Lemma auto_update_rotation_outcome_example :
  let r := @webauth_keyring_auto_update KeyringModel.deps (sample_env 2000)
             "keyring" false 500 sample_fs in
  au_status r = WA_ERR_NONE /\ 0 < 500.
Proof.
  destruct (@auto_update_rotation_outcome KeyringModel.deps (sample_env 2000)
              "keyring" false 500 sample_fs sample_ring)
    as (Hstatus & Hlife & _).
  - reflexivity.
  - reflexivity.
  - split; [exact Hstatus | exact Hlife].
Defined.

(** X12 on the same keyring and lifetime. *)
Lemma auto_update_rotation_criterion_example :
  let r := @webauth_keyring_auto_update KeyringModel.deps (sample_env 2000)
             "keyring" false 500 sample_fs in
  (au_updated r = WA_KAU_UPDATE
     <-> Forall (fun e => valid_after e + 500 <= 2000) sample_ring)
  /\ (au_updated r = WA_KAU_NONE
        <-> Exists (fun e => 2000 < valid_after e + 500) sample_ring)
  /\ (au_updated r = WA_KAU_NONE ->
      au_status r = WA_ERR_NONE /\ au_update_status r = WA_ERR_NONE
      /\ au_ring r = Some sample_ring /\ au_fs r = sample_fs).
Proof.
  apply (@auto_update_rotation_criterion KeyringModel.deps (sample_env 2000)
           "keyring" false 500 sample_fs sample_ring).
  - reflexivity.
  - lia.
  - repeat constructor; simpl; lia.
Defined.
